(** * Dining philosophers (src/3.go) and chunked worker statistics
      (src/unnamed/part_001): a shallow embedding and its properties.

    Module [Philosophers] embeds src/3.go: the ring built by [main], the
    goroutine bodies [dine]/[think]/[eat] as a small-step interleaving
    semantics over an explicit state (fork mutexes, the [done] channel, the
    WaitGroup counter, one program point per goroutine), and the output
    stream as a ghost trace.

    Module [Stats] embeds src/unnamed/part_001: [calculateAverageAge],
    [findMaxSalary], [abs] and the two drivers, over binary64 floats. *)

From Stdlib Require Import ZArith Lia String.
From Stdlib Require Import Floats.PrimFloat Numbers.Cyclic.Int63.Uint63.
From Stdlib Require Import Floats.SpecFloat Floats.FloatOps Floats.FloatAxioms.
From stdpp Require Import base option list.

(** ** Small arithmetic facts about [%] on ring indices *)

Lemma mod2_cases (n : nat) : n mod 2 = 0 ∨ n mod 2 = 1.
Proof. pose proof (Nat.mod_upper_bound n 2). lia. Qed.


Lemma succ_mod_cases (n i : nat) :
  i < n → (i + 1 < n ∧ (i + 1) mod n = i + 1) ∨ (i + 1 = n ∧ (i + 1) mod n = 0).
Proof.
  intros Hi. destruct (decide (i + 1 < n)) as [Hlt|Hge].
  - left. split; [done|]. by apply Nat.mod_small.
  - right. assert (i + 1 = n) as -> by lia. split; [done|]. apply Nat.Div0.mod_same.
Qed.

Lemma succ_mod_lt (n i : nat) : i < n → (i + 1) mod n < n.
Proof. intros Hi. apply Nat.mod_upper_bound. lia. Qed.

Lemma succ_mod_ne (n i : nat) : 2 ≤ n → i < n → (i + 1) mod n ≠ i.
Proof. intros Hn Hi. destruct (succ_mod_cases n i Hi) as [[? ->]|[? ->]]; lia. Qed.

Lemma succ_mod_inj (n i j : nat) :
  i < n → j < n → (i + 1) mod n = (j + 1) mod n → i = j.
Proof.
  intros Hi Hj.
  destruct (succ_mod_cases n i Hi) as [[? ->]|[? ->]];
    destruct (succ_mod_cases n j Hj) as [[? ->]|[? ->]]; lia.
Qed.

Lemma pred_mod_lt (n f : nat) : f < n → (f + n - 1) mod n < n.
Proof. intros Hf. apply Nat.mod_upper_bound. lia. Qed.

Lemma succ_pred_mod (n f : nat) : f < n → ((f + n - 1) mod n + 1) mod n = f.
Proof.
  intros Hf. destruct (decide (f = 0)) as [->|Hne].
  - replace (0 + n - 1) with (n - 1) by lia.
    rewrite (Nat.mod_small (n - 1) n) by lia.
    replace (n - 1 + 1) with n by lia. apply Nat.Div0.mod_same.
  - replace (f + n - 1) with ((f - 1) + 1 * n) by lia.
    rewrite Nat.Div0.mod_add. rewrite (Nat.mod_small (f - 1) n) by lia.
    replace (f - 1 + 1) with f by lia. by apply Nat.mod_small.
Qed.

(** ** Generic list facts used by both developments *)

Lemma filter_at_most_one {A} (P : A → Prop) `{!∀ x, Decision (P x)} (l : list A) :
  NoDup l → (∀ x y, x ∈ l → y ∈ l → P x → P y → x = y) → length (filter P l) ≤ 1.
Proof.
  intros Hnd Huniq.
  destruct (filter P l) as [|x [|y l']] eqn:E; simpl; [lia..|].
  assert (NoDup (filter P l)) as Hnd' by (by apply NoDup_filter).
  rewrite E in Hnd'. apply NoDup_cons in Hnd' as [Hx _].
  assert (x ∈ filter P l) as Hxin by (rewrite E; left).
  assert (y ∈ filter P l) as Hyin by (rewrite E; right; left).
  apply list_elem_of_filter in Hxin as [HPx Hxl].
  apply list_elem_of_filter in Hyin as [HPy Hyl].
  exfalso. apply Hx. rewrite (Huniq x y Hxl Hyl HPx HPy). left.
Qed.

Lemma filter_length_pos {A} (P : A → Prop) `{!∀ x, Decision (P x)} (l : list A) :
  0 < length (filter P l) → ∃ i x, l !! i = Some x ∧ P x.
Proof.
  intros Hpos. destruct (filter P l) as [|x l'] eqn:E; [simpl in Hpos; lia|].
  assert (x ∈ filter P l) as Hin by (rewrite E; left).
  apply list_elem_of_filter in Hin as [HP Hin].
  apply list_elem_of_lookup in Hin as [i Hi]. by exists i, x.
Qed.

Lemma filter_lookup_pos {A} (P : A → Prop) `{!∀ x, Decision (P x)} (l : list A) i x :
  l !! i = Some x → P x → 0 < length (filter P l).
Proof.
  intros Hi HP. assert (x ∈ filter P l) as Hin.
  { apply list_elem_of_filter. split; [done|]. by eapply list_elem_of_lookup_2. }
  destruct (filter P l); [by apply elem_of_nil in Hin|simpl; lia].
Qed.

Lemma sum_list_insert (l : list nat) (i x y : nat) :
  l !! i = Some x → sum_list (<[i:=y]> l) + x = sum_list l + y.
Proof.
  revert i. induction l as [|a l IH]; intros [|i] Hi; simplify_eq/=; [lia|].
  specialize (IH i Hi). lia.
Qed.

Lemma filter_none {A} (P : A → Prop) `{!∀ x, Decision (P x)} (l : list A) :
  (∀ x, x ∈ l → ¬ P x) → filter P l = [].
Proof.
  induction l as [|x l IH]; intros Hno; [done|].
  rewrite filter_cons_False by (apply Hno; left).
  apply IH. intros y Hy. apply Hno. by right.
Qed.

Lemma filter_unique {A} (P : A → Prop) `{!∀ x, Decision (P x)} (l : list A) (a : A) :
  NoDup l → a ∈ l → (∀ x, x ∈ l → P x ↔ x = a) → filter P l = [a].
Proof.
  induction l as [|x l IH]; intros Hnd Hin Hchar.
  - by apply elem_of_nil in Hin.
  - apply NoDup_cons in Hnd as [Hx Hnd].
    destruct (decide (P x)) as [HP|HP].
    + assert (x = a) as -> by (apply Hchar; [left|done]).
      rewrite filter_cons_True by done.
      f_equal. apply filter_none. intros y Hy HPy.
      apply Hchar in HPy; [|by right]. by subst.
    + rewrite filter_cons_False by done.
      apply IH; [done| |].
      * apply elem_of_cons in Hin as [->|?]; [|done].
        exfalso. apply HP. apply Hchar; [left|done].
      * intros y Hy. apply Hchar. by right.
Qed.

Lemma filter_or_length {A} (P Q : A → Prop)
    `{!∀ x, Decision (P x)} `{!∀ x, Decision (Q x)} (l : list A) :
  (∀ x, x ∈ l → P x → Q x → False) →
  length (filter (λ x, P x ∨ Q x) l) = length (filter P l) + length (filter Q l).
Proof.
  induction l as [|x l IH]; intros Hdisj; [done|].
  assert (∀ y, y ∈ l → P y → Q y → False) as Hl by (intros y Hy; apply Hdisj; by right).
  specialize (IH Hl).
  destruct (decide (P x)) as [HP|HP]; destruct (decide (Q x)) as [HQ|HQ].
  - exfalso. eapply Hdisj; [left|done..].
  - rewrite (filter_cons_True (λ x, P x ∨ Q x)) by tauto.
    rewrite (filter_cons_True P) by done. rewrite (filter_cons_False Q) by done.
    simpl. lia.
  - rewrite (filter_cons_True (λ x, P x ∨ Q x)) by tauto.
    rewrite (filter_cons_False P) by done. rewrite (filter_cons_True Q) by done.
    simpl. lia.
  - rewrite (filter_cons_False (λ x, P x ∨ Q x)) by tauto.
    rewrite (filter_cons_False P) by done. by rewrite (filter_cons_False Q) by done.
Qed.

Lemma filter_insert_length {A} (P : A → Prop) `{!∀ x, Decision (P x)}
    (l : list A) (i : nat) (x y : A) :
  l !! i = Some x →
  length (filter P (<[i:=y]> l)) + (if decide (P x) then 1 else 0)
  = length (filter P l) + (if decide (P y) then 1 else 0).
Proof.
  revert i. induction l as [|a l IH]; intros [|i] Hi; simplify_eq/=.
  - rewrite !filter_cons. repeat case_decide; simpl; lia.
  - specialize (IH i Hi). rewrite !filter_cons. repeat case_decide; simpl in *; lia.
Qed.


Module Philosophers.

(** ** Data model (src/3.go, lines 15-26) *)

(** [type Fork struct { sync.Mutex }]: the only state of a fork is whether
    its embedded mutex is locked.  Go's mutex records no owner. *)
Record Fork := mkFork { locked : bool }.

(** A [*Fork] is an address in the heap of allocated forks. *)
Abbreviation ptr := nat.

(** [type Philosopher struct { id int; leftFork, rightFork *Fork }].
    Identities are slice indices, so [nat] loses nothing: [i+1] with
    [i < numPhilosophers] never overflows [int]. *)
Record Philosopher := mkPhilosopher { id : nat; leftFork : ptr; rightFork : ptr }.

Global Instance Philosopher_eq_dec : EqDecision Philosopher.
Proof. solve_decision. Defined.

(** ** Ring construction (main, lines 80-94) *)

(** [forks := make([]*Fork, n); for i := 0; i < n; i++ { forks[i] = &Fork{} }]:
    every iteration allocates a fresh unlocked fork and stores its address
    in slot [i].  Returns the slice and the grown heap. *)
Fixpoint new_forks (n : nat) (heap : list Fork) : list ptr * list Fork :=
  match n with
  | 0 => ([], heap)
  | S n' =>
      let a := length heap in
      let '(fs, h) := new_forks n' (heap ++ [mkFork false]) in
      (a :: fs, h)
  end.

(** The body of the second loop: [&Philosopher{id: i, leftFork: forks[i],
    rightFork: forks[(i+1)%n]}].  A slice index out of range is a run-time
    panic, [None] here.  The divisor of [%] is the constant
    [numPhilosophers]; that it is not zero is checked once, by the
    compiler, see [build_ring]. *)
Definition new_philosopher (forks : list ptr) (n i : nat) : option Philosopher :=
  l ← forks !! i;
  r ← forks !! ((i + 1) mod n);
  Some (mkPhilosopher i l r).

Definition new_philosophers (forks : list ptr) (n : nat) : option (list Philosopher) :=
  mapM (new_philosopher forks n) (seq 0 n).

Record Ring := mkRing { ring_heap : list Fork; ring_philosophers : list Philosopher }.

(** Lines 80-94 of [main] for [numPhilosophers = n].  The count is a
    constant and the divisor of [%] on line 92: with [n = 0] the divisor is
    a constant zero, which the compiler rejects, so there is no program to
    run.  [None] is that rejection, or a run-time panic. *)
Definition build_ring (n : nat) : option Ring :=
  if n =? 0 then None
  else
    let '(forks, heap) := new_forks n [] in
    ps ← new_philosophers forks n;
    Some (mkRing heap ps).

(** The constant of lines 11-13. *)
Definition numPhilosophers : nat := 5.

(** The table the builder is expected to produce. *)
Definition seat (n i : nat) : Philosopher := mkPhilosopher i i ((i + 1) mod n).
Definition table (n : nat) : list Philosopher := seat n <$> seq 0 n.

(** Agents whose primary (left), resp. secondary (right), reference is [f],
    and agents that reference [f] at all. *)
Definition primary_of (f : ptr) (ps : list Philosopher) : list Philosopher :=
  filter (λ p, leftFork p = f) ps.
Definition secondary_of (f : ptr) (ps : list Philosopher) : list Philosopher :=
  filter (λ p, rightFork p = f) ps.
Definition referrers (f : ptr) (ps : list Philosopher) : list Philosopher :=
  filter (λ p, leftFork p = f ∨ rightFork p = f) ps.

(** ** The acquisition order of [eat] (lines 59-65) *)

(** The two [Lock] calls of [eat], in program order. *)
Definition lock_order (p : Philosopher) : ptr * ptr :=
  if id p mod 2 =? 0 then (leftFork p, rightFork p) else (rightFork p, leftFork p).

Definition first_fork (p : Philosopher) : ptr := fst (lock_order p).
Definition second_fork (p : Philosopher) : ptr := snd (lock_order p).

(** *** Facts about the builder *)

Lemma new_forks_spec (n : nat) (heap : list Fork) :
  new_forks n heap = (seq (length heap) n, heap ++ replicate n (mkFork false)).
Proof.
  revert heap. induction n as [|n IH]; intros heap; simpl.
  - by rewrite app_nil_r.
  - rewrite IH. rewrite length_app. simpl.
    replace (length heap + 1) with (S (length heap)) by lia.
    by rewrite <- app_assoc.
Qed.

Lemma new_philosopher_seq (n i : nat) :
  i < n → new_philosopher (seq 0 n) n i = Some (seat n i).
Proof.
  intros Hi. unfold new_philosopher.
  rewrite (lookup_seq_lt 0 n i) by done.
  rewrite (lookup_seq_lt 0 n ((i + 1) mod n)) by (by apply succ_mod_lt). done.
Qed.

Lemma new_philosophers_seq (n : nat) : new_philosophers (seq 0 n) n = Some (table n).
Proof.
  unfold new_philosophers, table. apply mapM_Some.
  apply Forall2_fmap_r. apply Forall2_same_length_lookup_2; [done|].
  intros i x y Hx Hy. rewrite Hx in Hy. injection Hy as <-.
  apply lookup_seq in Hx as [-> Hi]. by apply new_philosopher_seq.
Qed.

Lemma build_ring_spec (n : nat) :
  1 ≤ n → build_ring n = Some (mkRing (replicate n (mkFork false)) (table n)).
Proof.
  intros Hn. unfold build_ring.
  destruct (Nat.eqb_spec n 0) as [->|_]; [lia|].
  rewrite new_forks_spec. simpl. by rewrite new_philosophers_seq.
Qed.

Lemma build_ring_zero : build_ring 0 = None.
Proof. reflexivity. Qed.

Lemma build_ring_Some (n : nat) (r : Ring) :
  build_ring n = Some r → 1 ≤ n ∧ r = mkRing (replicate n (mkFork false)) (table n).
Proof.
  intros Hr. destruct n as [|n]; [by rewrite build_ring_zero in Hr|].
  rewrite build_ring_spec in Hr by lia. split; [lia|congruence].
Qed.

Lemma table_length (n : nat) : length (table n) = n.
Proof. unfold table. by rewrite length_fmap, length_seq. Qed.

Lemma table_lookup (n i : nat) : i < n → table n !! i = Some (seat n i).
Proof. intros Hi. unfold table. rewrite list_lookup_fmap, lookup_seq_lt by done. done. Qed.

Lemma table_lookup_Some (n i : nat) (p : Philosopher) :
  table n !! i = Some p → i < n ∧ p = seat n i.
Proof.
  intros Hp. assert (i < n) as Hi.
  { apply lookup_lt_Some in Hp. by rewrite table_length in Hp. }
  rewrite table_lookup in Hp by done. split; [done|congruence].
Qed.

Lemma table_NoDup (n : nat) : NoDup (table n).
Proof.
  unfold table. apply NoDup_fmap_2; [|apply NoDup_seq].
  intros i j Hij. by injection Hij.
Qed.

Lemma elem_of_table (n : nat) (p : Philosopher) :
  p ∈ table n ↔ ∃ i, i < n ∧ p = seat n i.
Proof.
  unfold table. rewrite list_elem_of_fmap. split.
  - intros (i & -> & Hi). apply elem_of_seq in Hi. exists i. split; [lia|done].
  - intros (i & Hi & ->). exists i. split; [done|]. apply elem_of_seq. lia.
Qed.

(** ** The running system (lines 30-74 and 96-117) *)

(** Program points of one [dine] goroutine, one per statement. *)
Inductive loc :=
| LSelect        (* line 34: top of the loop, [select] on [done] *)
| LThinkPrint    (* line 50 *)
| LThinkSleep    (* line 51 *)
| LLockFirst     (* line 60 or 63 *)
| LLockSecond    (* line 61 or 64 *)
| LEatPrint      (* line 68 *)
| LEatSleep      (* line 69 *)
| LUnlockLeft    (* line 72 *)
| LUnlockRight   (* line 73 *)
| LFinishPrint   (* line 37 *)
| LDeferDone     (* line 38 returns, the deferred [wg.Done()] of line 31 runs *)
| LExited.       (* the goroutine is gone *)

(** Program points of [main]. [MRange k] is the head of the loop of line
    102 about to handle [philosophers[k]]; [MGo k] is line 104. *)
Inductive mloc :=
| MBuild | MRange (k : nat) | MGo (k : nat) | MSleep | MClose | MWait | MPrintln | MExited.

(** The output stream (the four format strings of the program), and, as
    ghost events, what [main] does to the other goroutines. *)
Inductive event :=
| EvThinking (i : nat)
| EvEating (i : nat)
| EvFinished (i : nat)
| EvAllFinished
| EvGo (k : nat)
| EvSleep (ns : Z)
| EvClose.

Global Instance loc_eq_dec : EqDecision loc.
Proof. solve_decision. Defined.
Global Instance mloc_eq_dec : EqDecision mloc.
Proof. solve_decision. Defined.
Global Instance event_eq_dec : EqDecision event.
Proof. solve_decision. Defined.

Record state := mkState {
  mpc : mloc;
  philosophers : list Philosopher;
  heap : list Fork;
  procs : list loc;          (* goroutine [i] runs [philosophers[i].dine] *)
  done : bool;               (* the channel [done] has been closed *)
  wg : nat;                  (* the WaitGroup counter *)
  trace : list event }.

Inductive outcome :=
| Next (s : state)
| Blocked      (* the thread waits in [Lock] or [Wait] *)
| Halted       (* the thread does not exist or has returned *)
| Panic.       (* a run-time panic or fatal error, or no program at all *)

Definition init : state := mkState MBuild [] [] [] false 0 [].

Definition set_mpc (m : mloc) (s : state) : state :=
  mkState m (philosophers s) (heap s) (procs s) (done s) (wg s) (trace s).
Definition set_heap (h : list Fork) (s : state) : state :=
  mkState (mpc s) (philosophers s) h (procs s) (done s) (wg s) (trace s).
Definition set_procs (ps : list loc) (s : state) : state :=
  mkState (mpc s) (philosophers s) (heap s) ps (done s) (wg s) (trace s).
Definition set_loc (i : nat) (l : loc) (s : state) : state :=
  set_procs (<[i:=l]> (procs s)) s.
Definition set_done (b : bool) (s : state) : state :=
  mkState (mpc s) (philosophers s) (heap s) (procs s) b (wg s) (trace s).
Definition set_wg (n : nat) (s : state) : state :=
  mkState (mpc s) (philosophers s) (heap s) (procs s) (done s) n (trace s).
Definition emit (e : event) (s : state) : state :=
  mkState (mpc s) (philosophers s) (heap s) (procs s) (done s) (wg s) (trace s ++ [e]).

Definition then_do (o : outcome) (k : state → state) : outcome :=
  match o with Next s => Next (k s) | Blocked => Blocked | Halted => Halted | Panic => Panic end.

(** [f.Lock()]: blocks while the mutex is locked. *)
Definition mutex_lock (f : ptr) (s : state) : outcome :=
  match heap s !! f with
  | Some (mkFork false) => Next (set_heap (<[f:=mkFork true]> (heap s)) s)
  | Some (mkFork true) => Blocked
  | None => Panic
  end.

(** [f.Unlock()]: unlocking an unlocked mutex is a fatal error. *)
Definition mutex_unlock (f : ptr) (s : state) : outcome :=
  match heap s !! f with
  | Some (mkFork true) => Next (set_heap (<[f:=mkFork false]> (heap s)) s)
  | Some (mkFork false) => Panic
  | None => Panic
  end.

(** [wg.Done()]: a negative counter is a panic. *)
Definition wg_done (s : state) : outcome :=
  match wg s with
  | 0 => Panic
  | S n => Next (set_wg n s)
  end.

(** One statement of goroutine [i].  [think] and [eat] are inlined at
    their call sites in [dine]. *)
Definition exec_agent (i : nat) (s : state) : outcome :=
  match procs s !! i, philosophers s !! i with
  | Some l, Some p =>
      match l with
      | LSelect =>
          if done s then Next (set_loc i LFinishPrint s)
          else Next (set_loc i LThinkPrint s)
      | LThinkPrint => Next (set_loc i LThinkSleep (emit (EvThinking (id p)) s))
      | LThinkSleep => Next (set_loc i LLockFirst s)
      | LLockFirst => then_do (mutex_lock (first_fork p) s) (set_loc i LLockSecond)
      | LLockSecond => then_do (mutex_lock (second_fork p) s) (set_loc i LEatPrint)
      | LEatPrint => Next (set_loc i LEatSleep (emit (EvEating (id p)) s))
      | LEatSleep => Next (set_loc i LUnlockLeft s)
      | LUnlockLeft => then_do (mutex_unlock (leftFork p) s) (set_loc i LUnlockRight)
      | LUnlockRight => then_do (mutex_unlock (rightFork p) s) (set_loc i LSelect)
      | LFinishPrint => Next (set_loc i LDeferDone (emit (EvFinished (id p)) s))
      | LDeferDone => then_do (wg_done s) (set_loc i LExited)
      | LExited => Halted
      end
  | _, _ => Halted
  end.

(** [5 * time.Second], in nanoseconds. *)
Definition run_duration : Z := 5 * 1000000000.

(** One statement of [main] for [numPhilosophers = n]. *)
Definition exec_main (n : nat) (s : state) : outcome :=
  match mpc s with
  | MBuild =>
      match build_ring n with
      | Some r =>
          Next (mkState (MRange 0) (ring_philosophers r) (ring_heap r)
                        (procs s) (done s) (wg s) (trace s))
      | None => Panic
      end
  | MRange k =>
      if decide (k < length (philosophers s))
      then Next (set_mpc (MGo k) (set_wg (S (wg s)) s))
      else Next (set_mpc MSleep s)
  | MGo k =>
      Next (set_mpc (MRange (S k)) (emit (EvGo k) (set_procs (procs s ++ [LSelect]) s)))
  | MSleep => Next (set_mpc MClose (emit (EvSleep run_duration) s))
  | MClose =>
      if done s then Panic
      else Next (set_mpc MWait (emit EvClose (set_done true s)))
  | MWait =>
      match wg s with
      | 0 => Next (set_mpc MPrintln s)
      | S _ => Blocked
      end
  | MPrintln => Next (set_mpc MExited (emit EvAllFinished s))
  | MExited => Halted
  end.

Inductive tid := Main | Agent (i : nat).

Definition exec (n : nat) (t : tid) (s : state) : outcome :=
  match t with
  | Main => exec_main n s
  | Agent i => exec_agent i s
  end.

Definition step (n : nat) (s s' : state) : Prop := ∃ t, exec n t s = Next s'.

Inductive reachable (n : nat) : state → Prop :=
| reachable_init : reachable n init
| reachable_step s s' : reachable n s → step n s s' → reachable n s'.

(** Running a fixed schedule, to exhibit reachable states. *)
Fixpoint run (n : nat) (sched : list tid) (s : state) : option state :=
  match sched with
  | [] => Some s
  | t :: sched' =>
      match exec n t s with
      | Next s' => run n sched' s'
      | _ => None
      end
  end.

(** What goroutine [i] holds, read off its program point. *)
Definition held (p : Philosopher) (l : loc) : list ptr :=
  match l with
  | LLockSecond => [first_fork p]
  | LEatPrint | LEatSleep | LUnlockLeft => [leftFork p; rightFork p]
  | LUnlockRight => [rightFork p]
  | _ => []
  end.

Definition holds (s : state) (i : nat) (f : ptr) : Prop :=
  ∃ l p, procs s !! i = Some l ∧ philosophers s !! i = Some p ∧ f ∈ held p l.

Global Instance holds_dec s i f : Decision (holds s i f).
Proof.
  unfold holds.
  destruct (procs s !! i) as [l|] eqn:Hl; [|right; intros (?&?&?&?); congruence].
  destruct (philosophers s !! i) as [p|] eqn:Hp; [|right; intros (?&?&?&?&?); congruence].
  destruct (decide (f ∈ held p l)) as [Hin|Hin].
  - left. by exists l, p.
  - right. intros (l'&p'&?&?&?). by simplify_eq.
Defined.

(** The agents holding fork [f], among goroutines [0 .. n-1]. *)
Definition holders (n : nat) (s : state) (f : ptr) : list nat :=
  filter (λ i, holds s i f) (seq 0 n).

(** ** Inversion of the step functions *)

Lemma mutex_lock_Next f s s' :
  mutex_lock f s = Next s' →
  heap s !! f = Some (mkFork false) ∧ s' = set_heap (<[f:=mkFork true]> (heap s)) s.
Proof. unfold mutex_lock. intros H. repeat case_match; by simplify_eq. Qed.

Lemma mutex_unlock_Next f s s' :
  mutex_unlock f s = Next s' →
  heap s !! f = Some (mkFork true) ∧ s' = set_heap (<[f:=mkFork false]> (heap s)) s.
Proof. unfold mutex_unlock. intros H. repeat case_match; by simplify_eq. Qed.

Lemma wg_done_Next s s' :
  wg_done s = Next s' → ∃ c, wg s = S c ∧ s' = set_wg c s.
Proof. unfold wg_done. intros H. destruct (wg s) as [|c] eqn:E; [done|]. exists c. by simplify_eq. Qed.

Lemma then_do_Next o k s' :
  then_do o k = Next s' → ∃ s1, o = Next s1 ∧ s' = k s1.
Proof. destruct o; simpl; intros H; [|done..]. exists s. by simplify_eq. Qed.

(** The effect of one agent step, as a relation on program points. *)
Inductive agent_step (i : nat) (p : Philosopher) (s : state) : loc → state → Prop :=
| as_select_done :
    done s = true → agent_step i p s LSelect (set_loc i LFinishPrint s)
| as_select_default :
    done s = false → agent_step i p s LSelect (set_loc i LThinkPrint s)
| as_think_print :
    agent_step i p s LThinkPrint (set_loc i LThinkSleep (emit (EvThinking (id p)) s))
| as_think_sleep :
    agent_step i p s LThinkSleep (set_loc i LLockFirst s)
| as_lock_first :
    heap s !! first_fork p = Some (mkFork false) →
    agent_step i p s LLockFirst
      (set_loc i LLockSecond (set_heap (<[first_fork p:=mkFork true]> (heap s)) s))
| as_lock_second :
    heap s !! second_fork p = Some (mkFork false) →
    agent_step i p s LLockSecond
      (set_loc i LEatPrint (set_heap (<[second_fork p:=mkFork true]> (heap s)) s))
| as_eat_print :
    agent_step i p s LEatPrint (set_loc i LEatSleep (emit (EvEating (id p)) s))
| as_eat_sleep :
    agent_step i p s LEatSleep (set_loc i LUnlockLeft s)
| as_unlock_left :
    heap s !! leftFork p = Some (mkFork true) →
    agent_step i p s LUnlockLeft
      (set_loc i LUnlockRight (set_heap (<[leftFork p:=mkFork false]> (heap s)) s))
| as_unlock_right :
    heap s !! rightFork p = Some (mkFork true) →
    agent_step i p s LUnlockRight
      (set_loc i LSelect (set_heap (<[rightFork p:=mkFork false]> (heap s)) s))
| as_finish_print :
    agent_step i p s LFinishPrint (set_loc i LDeferDone (emit (EvFinished (id p)) s))
| as_defer_done c :
    wg s = S c → agent_step i p s LDeferDone (set_loc i LExited (set_wg c s)).

Lemma exec_agent_Next i s s' :
  exec_agent i s = Next s' ↔
  ∃ l p, procs s !! i = Some l ∧ philosophers s !! i = Some p ∧ agent_step i p s l s'.
Proof.
  unfold exec_agent. split.
  - intros H.
    destruct (procs s !! i) as [l|] eqn:Hl; [|done].
    destruct (philosophers s !! i) as [p|] eqn:Hp; [|done].
    exists l, p. split; [done|]. split; [done|].
    destruct l; simpl in H;
      try (apply then_do_Next in H as (s1 & H1 & ->));
      try (apply mutex_lock_Next in H1 as [? ->]);
      try (apply mutex_unlock_Next in H1 as [? ->]);
      try (apply wg_done_Next in H1 as (c & ? & ->));
      try (destruct (done s) eqn:Hd);
      simplify_eq; by constructor.
  - intros (l & p & -> & -> & Hs).
    destruct Hs; simpl;
      unfold mutex_lock, mutex_unlock, wg_done;
      repeat match goal with H : _ = _ |- _ => rewrite H end; done.
Qed.

(** The effect of one step of [main]. *)
Inductive main_step (n : nat) (s : state) : mloc → state → Prop :=
| ms_build r :
    build_ring n = Some r →
    main_step n s MBuild
      (mkState (MRange 0) (ring_philosophers r) (ring_heap r)
               (procs s) (done s) (wg s) (trace s))
| ms_range_body k :
    k < length (philosophers s) →
    main_step n s (MRange k) (set_mpc (MGo k) (set_wg (S (wg s)) s))
| ms_range_exit k :
    ¬ k < length (philosophers s) →
    main_step n s (MRange k) (set_mpc MSleep s)
| ms_go k :
    main_step n s (MGo k)
      (set_mpc (MRange (S k)) (emit (EvGo k) (set_procs (procs s ++ [LSelect]) s)))
| ms_sleep :
    main_step n s MSleep (set_mpc MClose (emit (EvSleep run_duration) s))
| ms_close :
    done s = false →
    main_step n s MClose (set_mpc MWait (emit EvClose (set_done true s)))
| ms_wait :
    wg s = 0 → main_step n s MWait (set_mpc MPrintln s)
| ms_println :
    main_step n s MPrintln (set_mpc MExited (emit EvAllFinished s)).

Lemma exec_main_Next n s s' :
  exec_main n s = Next s' ↔ main_step n s (mpc s) s'.
Proof.
  unfold exec_main. split.
  - intros H. destruct (mpc s) eqn:Hm; repeat case_match; simplify_eq;
      try (by econstructor).
  - intros Hs. destruct Hs; try done.
    + by rewrite H.
    + by rewrite decide_True.
    + by rewrite decide_False.
    + by rewrite H.
    + by rewrite H.
Qed.

(** Case analysis on a step: [step_cases H] replaces a step [H] by the
    twenty concrete statements that can have produced it. *)
Ltac step_cases H :=
  let t := fresh "t" in
  destruct H as [t H]; destruct t as [|?i]; simpl in H;
  [ apply exec_main_Next in H; inversion H; subst; clear H;
    match goal with X : _ = mpc _ |- _ =>
      let Hm := fresh "Hm" in rename X into Hm; symmetry in Hm end
  | let l := fresh "l" in let p := fresh "p" in
    let Hl := fresh "Hl" in let Hp := fresh "Hp" in
    apply exec_agent_Next in H as (l & p & Hl & Hp & H);
    inversion H; subst; clear H ].

(** ** Invariants of the reachable states *)

(** Goroutines started so far, read off [main]'s program point. *)
Definition spawned (n : nat) (m : mloc) : nat :=
  match m with
  | MBuild => 0
  | MRange k | MGo k => k
  | _ => n
  end.

(** [done] is closed exactly from [MWait] on. *)
Definition closed (m : mloc) : bool :=
  match m with
  | MWait | MPrintln | MExited => true
  | _ => false
  end.

(** Between [wg.Add(1)] and [go] one unit of the counter has no goroutine yet. *)
Definition pending (m : mloc) : nat :=
  match m with
  | MGo _ => 1
  | _ => 0
  end.

Definition live (l : loc) : Prop := l ≠ LExited.

Global Instance live_dec l : Decision (live l).
Proof. unfold live. apply _. Defined.

Record wf (n : nat) (s : state) : Prop := mkWf {
  wf_ring : mpc s ≠ MBuild → philosophers s = table n ∧ length (heap s) = n;
  wf_procs : length (procs s) = spawned n (mpc s);
  wf_bound : match mpc s with
             | MRange k => k ≤ n
             | MGo k => k < n
             | _ => True
             end;
  wf_done : done s = closed (mpc s);
  wf_wg : wg s = length (filter live (procs s)) + pending (mpc s);
  wf_joined : mpc s = MPrintln ∨ mpc s = MExited → wg s = 0
}.

Record locks_ok (s : state) : Prop := mkLocksOk {
  lk_sound : ∀ f, heap s !! f = Some (mkFork true) → ∃ i, holds s i f;
  lk_complete : ∀ i f, holds s i f → heap s !! f = Some (mkFork true);
  lk_excl : ∀ i j f, holds s i f → holds s j f → i = j;
  lk_nodup : ∀ i l p,
    procs s !! i = Some l → philosophers s !! i = Some p → NoDup (held p l)
}.

(** [main]'s own events, in the order [main] produces them. *)
Definition is_main_event (e : event) : Prop :=
  match e with
  | EvGo _ | EvSleep _ | EvClose | EvAllFinished => True
  | _ => False
  end.

Global Instance is_main_event_dec e : Decision (is_main_event e).
Proof. destruct e; simpl; apply _. Defined.

Definition main_events (s : state) : list event := filter is_main_event (trace s).

Definition main_history (n : nat) (m : mloc) : list event :=
  match m with
  | MBuild => []
  | MRange k | MGo k => EvGo <$> seq 0 k
  | MSleep => EvGo <$> seq 0 n
  | MClose => (EvGo <$> seq 0 n) ++ [EvSleep run_duration]
  | MWait | MPrintln => (EvGo <$> seq 0 n) ++ [EvSleep run_duration; EvClose]
  | MExited => (EvGo <$> seq 0 n) ++ [EvSleep run_duration; EvClose; EvAllFinished]
  end.

(** How often an event occurs in the output so far. *)
Definition occurrences (e : event) (s : state) : nat :=
  length (filter (λ e', e' = e) (trace s)).

(** The program points after the "finished" line of goroutine [i]. *)
Definition finished_loc (l : loc) : bool :=
  match l with
  | LDeferDone | LExited => true
  | _ => false
  end.

Definition announced (s : state) (i : nat) : nat :=
  match procs s !! i with
  | Some l => if finished_loc l then 1 else 0
  | None => 0
  end.

Record trace_ok (n : nat) (s : state) : Prop := mkTraceOk {
  tr_main : main_events s = main_history n (mpc s);
  tr_finished : ∀ i, occurrences (EvFinished i) s = announced s i
}.

Section invariants.
Variable n : nat.

Lemma wf_init : wf n init.
Proof. by split. Qed.

Lemma wf_agent_lt s i l : wf n s → procs s !! i = Some l → i < n.
Proof.
  intros Hwf Hl. apply lookup_lt_Some in Hl. rewrite (wf_procs _ _ Hwf) in Hl.
  pose proof (wf_bound _ _ Hwf). destruct (mpc s); simpl in *; lia.
Qed.

Lemma wf_agent_seat s i l p :
  wf n s → procs s !! i = Some l → philosophers s !! i = Some p → i < n ∧ p = seat n i.
Proof.
  intros Hwf Hl Hp. destruct (decide (mpc s = MBuild)) as [Hm|Hm].
  - apply lookup_lt_Some in Hl. rewrite (wf_procs _ _ Hwf), Hm in Hl. simpl in Hl. lia.
  - destruct (wf_ring _ _ Hwf Hm) as [Ht _]. rewrite Ht in Hp.
    by apply table_lookup_Some.
Qed.

Lemma wf_agent_philosopher s i l :
  wf n s → procs s !! i = Some l → philosophers s !! i = Some (seat n i).
Proof.
  intros Hwf Hl. pose proof (wf_agent_lt _ _ _ Hwf Hl) as Hi.
  destruct (decide (mpc s = MBuild)) as [Hm|Hm].
  - apply lookup_lt_Some in Hl. rewrite (wf_procs _ _ Hwf), Hm in Hl. simpl in Hl. lia.
  - destruct (wf_ring _ _ Hwf Hm) as [-> _]. by apply table_lookup.
Qed.

Lemma live_count_insert (ps : list loc) i l l' :
  ps !! i = Some l →
  length (filter live (<[i:=l']> ps)) + (if decide (l = LExited) then 0 else 1)
  = length (filter live ps) + (if decide (l' = LExited) then 0 else 1).
Proof.
  intros Hl. pose proof (filter_insert_length live ps i l l' Hl) as Hc.
  unfold live in *. repeat case_decide; done || lia.
Qed.

Lemma wf_step s s' : wf n s → step n s s' → wf n s'.
Proof.
  intros [Hring Hprocs Hbound Hdone Hwg Hjoin] Hstep.
  step_cases Hstep.
  all: try rewrite Hm in *.
  all: split; simpl in *; rewrite ?length_insert, ?Hm; try done.
  all: try (intros _; by apply Hring).
  all: try (intros [?|?]; simplify_eq; lia).
  all: try (match goal with
            | Hl : procs ?s !! ?i = Some ?l |- context [<[?i:=?l']> (procs ?s)] =>
                pose proof (live_count_insert (procs s) i l l' Hl) as Hc;
                repeat case_decide; simplify_eq; lia
            end).
  all: try lia.
  - (* build *)
    intros _. apply build_ring_Some in H0 as [_ ->]. simpl.
    by rewrite length_replicate.
  - (* body of the range loop *)
    destruct (Hring ltac:(done)) as [Ht _]. rewrite Ht, table_length in H0. lia.
  - (* exit of the range loop: all [n] goroutines are started *)
    destruct (Hring ltac:(done)) as [Ht _]. rewrite Ht, table_length in H0. lia.
  - rewrite length_app. simpl. lia.
  - rewrite filter_app, length_app. simpl. lia.
  - intros _. apply Hjoin. by left.
  - intros Hor. apply Hjoin in Hor. lia.
Qed.

(** *** Mutual exclusion of the fork mutexes *)

Lemma holds_update s s' i l l' p j f :
  procs s' = <[i:=l']> (procs s) → philosophers s' = philosophers s →
  procs s !! i = Some l → philosophers s !! i = Some p →
  holds s' j f ↔ (if decide (j = i) then f ∈ held p l' else holds s j f).
Proof.
  intros Hps Hph Hl Hp. unfold holds. rewrite Hps, Hph.
  case_decide as Hji.
  - subst j. rewrite list_lookup_insert_eq by (by eapply lookup_lt_Some). split.
    + intros (l0 & p0 & ? & ? & ?). by simplify_eq.
    + intros Hin. by exists l', p.
  - by rewrite list_lookup_insert_ne.
Qed.

Lemma holds_self s i l p f :
  procs s !! i = Some l → philosophers s !! i = Some p → holds s i f ↔ f ∈ held p l.
Proof.
  intros Hl Hp. unfold holds. split.
  - intros (l0 & p0 & ? & ? & ?). by simplify_eq.
  - intros Hin. by exists l, p.
Qed.

Lemma locks_ok_init : locks_ok init.
Proof.
  split.
  - intros f Hf. done.
  - intros i f (l & p & Hl & _). done.
  - intros i j f (l & p & Hl & _). done.
  - intros i l p Hl. done.
Qed.

(** A step of goroutine [i] that touches no mutex and keeps what it holds. *)
Lemma locks_ok_keep s s' i l l' p :
  locks_ok s →
  procs s !! i = Some l → philosophers s !! i = Some p →
  procs s' = <[i:=l']> (procs s) → philosophers s' = philosophers s →
  heap s' = heap s → held p l' = held p l →
  locks_ok s'.
Proof.
  intros [Hsound Hcomp Hexcl Hnd] Hl Hp Hps Hph Hh Hheld.
  assert (∀ j f, holds s' j f ↔ holds s j f) as Hiff.
  { intros j f. rewrite (holds_update s s' i l l' p j f) by done.
    case_decide; [subst j|done]. rewrite Hheld. symmetry. by apply holds_self. }
  split.
  - intros f Hf. rewrite Hh in Hf. destruct (Hsound f Hf) as [j Hj].
    exists j. by apply Hiff.
  - intros j f Hj. rewrite Hh. apply Hcomp with j. by apply Hiff.
  - intros j k f Hj Hk. apply Hexcl with f; by apply Hiff.
  - intros j lj pj Hlj Hpj. rewrite Hps in Hlj. rewrite Hph in Hpj.
    destruct (decide (j = i)) as [->|Hne].
    + rewrite list_lookup_insert_eq in Hlj by (by eapply lookup_lt_Some).
      simplify_eq. rewrite Hheld. by eapply Hnd.
    + rewrite list_lookup_insert_ne in Hlj by done. by eapply Hnd.
Qed.

(** Goroutine [i] locks the free mutex [f]. *)
Lemma locks_ok_acquire s s' i l l' p f :
  locks_ok s →
  procs s !! i = Some l → philosophers s !! i = Some p →
  procs s' = <[i:=l']> (procs s) → philosophers s' = philosophers s →
  heap s !! f = Some (mkFork false) →
  heap s' = <[f:=mkFork true]> (heap s) → held p l' ≡ₚ f :: held p l →
  locks_ok s'.
Proof.
  intros [Hsound Hcomp Hexcl Hnd] Hl Hp Hps Hph Hfree Hh Hheld.
  assert (f < length (heap s)) as Hlen by (by eapply lookup_lt_Some).
  assert (∀ j, ¬ holds s j f) as Hnone.
  { intros j Hj. apply Hcomp in Hj. congruence. }
  assert (∀ j g, holds s' j g ↔ (j = i ∧ g = f) ∨ holds s j g) as Hiff.
  { intros j g. rewrite (holds_update s s' i l l' p j g) by done.
    case_decide as Hji.
    - subst j. rewrite Hheld, elem_of_cons, (holds_self s i l p g) by done. tauto.
    - tauto. }
  split.
  - intros g Hg. rewrite Hh in Hg. destruct (decide (g = f)) as [->|Hne].
    + exists i. apply Hiff. by left.
    + rewrite list_lookup_insert_ne in Hg by done.
      destruct (Hsound g Hg) as [j Hj]. exists j. apply Hiff. by right.
  - intros j g Hj. rewrite Hh. apply Hiff in Hj as [[-> ->]|Hj].
    + by rewrite list_lookup_insert_eq.
    + destruct (decide (g = f)) as [->|Hne]; [by destruct (Hnone j)|].
      rewrite list_lookup_insert_ne by done. by eapply Hcomp.
  - intros j k g Hj Hk.
    apply Hiff in Hj as [[? ?]|Hj]; apply Hiff in Hk as [[? ?]|Hk]; subst.
    + done.
    + by destruct (Hnone k).
    + by destruct (Hnone j).
    + by eapply Hexcl.
  - intros j lj pj Hlj Hpj. rewrite Hps in Hlj. rewrite Hph in Hpj.
    destruct (decide (j = i)) as [->|Hne].
    + rewrite list_lookup_insert_eq in Hlj by (by eapply lookup_lt_Some).
      simplify_eq. rewrite Hheld. apply NoDup_cons. split; [|by eapply Hnd].
      intros Hin. apply (Hnone i). eapply holds_self; eauto.
    + rewrite list_lookup_insert_ne in Hlj by done. by eapply Hnd.
Qed.

(** Goroutine [i] unlocks the mutex [f], which it holds. *)
Lemma locks_ok_release s s' i l l' p f :
  locks_ok s →
  procs s !! i = Some l → philosophers s !! i = Some p →
  procs s' = <[i:=l']> (procs s) → philosophers s' = philosophers s →
  heap s' = <[f:=mkFork false]> (heap s) → held p l ≡ₚ f :: held p l' →
  locks_ok s'.
Proof.
  intros [Hsound Hcomp Hexcl Hnd] Hl Hp Hps Hph Hh Hheld.
  assert (NoDup (f :: held p l')) as Hnd'.
  { rewrite <- Hheld. by eapply Hnd. }
  apply NoDup_cons in Hnd' as [Hf Hnd'].
  assert (holds s i f) as Hif.
  { apply (holds_self s i l p); [done..|]. rewrite Hheld. by left. }
  assert (f < length (heap s)) as Hlen.
  { apply Hcomp in Hif. by eapply lookup_lt_Some. }
  assert (∀ j g, holds s' j g ↔ holds s j g ∧ g ≠ f) as Hiff.
  { intros j g. rewrite (holds_update s s' i l l' p j g) by done.
    case_decide as Hji.
    - subst j. rewrite (holds_self s i l p g), Hheld, elem_of_cons by done.
      split; [intros Hin; split; [by right|by intros ->]|].
      intros [[->|Hin] Hne]; done.
    - split; [|tauto]. intros Hj. split; [done|]. intros ->.
      apply Hji. by apply Hexcl with f. }
  split.
  - intros g Hg. rewrite Hh in Hg. destruct (decide (g = f)) as [->|Hne].
    + by rewrite list_lookup_insert_eq in Hg.
    + rewrite list_lookup_insert_ne in Hg by done.
      destruct (Hsound g Hg) as [j Hj]. exists j. by apply Hiff.
  - intros j g Hj. rewrite Hh. apply Hiff in Hj as [Hj Hne].
    rewrite list_lookup_insert_ne by done. by eapply Hcomp.
  - intros j k g Hj Hk. apply Hiff in Hj as [Hj _]. apply Hiff in Hk as [Hk _].
    by eapply Hexcl.
  - intros j lj pj Hlj Hpj. rewrite Hps in Hlj. rewrite Hph in Hpj.
    destruct (decide (j = i)) as [->|Hne].
    + rewrite list_lookup_insert_eq in Hlj by (by eapply lookup_lt_Some).
      by simplify_eq.
    + rewrite list_lookup_insert_ne in Hlj by done. by eapply Hnd.
Qed.

Lemma locks_ok_frame s s' :
  locks_ok s →
  procs s' = procs s → philosophers s' = philosophers s → heap s' = heap s →
  locks_ok s'.
Proof.
  intros [Hsound Hcomp Hexcl Hnd] Hps Hph Hh.
  split; unfold holds in *; rewrite ?Hps, ?Hph, ?Hh; done.
Qed.

Lemma lock_order_perm p : [leftFork p; rightFork p] ≡ₚ [second_fork p; first_fork p].
Proof.
  unfold first_fork, second_fork, lock_order. case_match; simpl; [apply perm_swap|done].
Qed.

Lemma locks_ok_step s s' : wf n s → locks_ok s → step n s s' → locks_ok s'.
Proof.
  intros Hwf Hlk Hstep. step_cases Hstep.
  all: try (by eapply locks_ok_frame).
  all: try (by eapply (locks_ok_keep s _ i)).
  - (* build: no goroutine exists yet and every fork is unlocked *)
    apply build_ring_Some in H0 as [_ ->]. simpl.
    assert (procs s = []) as Hnil.
    { apply length_zero_iff_nil. rewrite (wf_procs _ _ Hwf), Hm. done. }
    split; unfold holds; simpl; rewrite ?Hnil.
    + intros f Hf. apply lookup_replicate in Hf as [? _]. done.
    + intros i f (l & p & Hl & _). done.
    + intros i j f (l & p & Hl & _). done.
    + intros i l p Hl. done.
  - (* go: the new goroutine holds nothing *)
    destruct Hlk as [Hsound Hcomp Hexcl Hnd].
    assert (∀ j f, holds (set_mpc (MRange (S k))
                     (emit (EvGo k) (set_procs (procs s ++ [LSelect]) s))) j f
                   ↔ holds s j f) as Hiff.
    { intros j f. unfold holds. simpl. split.
      - intros (l & p & Hl & Hp & Hin). exists l, p.
        apply lookup_app_Some in Hl as [Hl|[_ Hl]]; [done|].
        apply list_lookup_singleton_Some in Hl as [_ <-]. by apply elem_of_nil in Hin.
      - intros (l & p & Hl & Hp & Hin). exists l, p.
        split; [|done]. by apply lookup_app_l_Some. }
    split.
    + intros f Hf. destruct (Hsound f Hf) as [j Hj]. exists j. by apply Hiff.
    + intros j f Hj. apply Hiff in Hj. by eapply Hcomp.
    + intros j j' f Hj Hj'. apply Hiff in Hj. apply Hiff in Hj'. by eapply Hexcl.
    + intros j l p. simpl. intros Hl Hp.
      apply lookup_app_Some in Hl as [Hl|[_ Hl]]; [by eapply Hnd|].
      apply list_lookup_singleton_Some in Hl as [_ <-]. apply NoDup_nil_2.
  - by eapply (locks_ok_acquire s _ i LLockFirst LLockSecond p (first_fork p)).
  - eapply (locks_ok_acquire s _ i LLockSecond LEatPrint p (second_fork p)); try done.
    apply lock_order_perm.
  - by eapply (locks_ok_release s _ i LUnlockLeft LUnlockRight p (leftFork p)).
  - by eapply (locks_ok_release s _ i LUnlockRight LSelect p (rightFork p)).
Qed.

(** *** The output stream *)

Lemma trace_ok_init : trace_ok n init.
Proof. by split. Qed.

Lemma announced_insert s s' i l l' j :
  procs s !! i = Some l → procs s' = <[i:=l']> (procs s) →
  announced s' j =
  if decide (j = i) then (if finished_loc l' then 1 else 0) else announced s j.
Proof.
  intros Hl Hps. unfold announced. rewrite Hps. case_decide as Hji.
  - subst j. by rewrite list_lookup_insert_eq by (by eapply lookup_lt_Some).
  - by rewrite list_lookup_insert_ne.
Qed.


Lemma announced_go s s' j :
  procs s' = procs s ++ [LSelect] → announced s' j = announced s j.
Proof.
  intros Hps. unfold announced. rewrite Hps.
  destruct (procs s !! j) as [l|] eqn:Hl.
  - by rewrite (lookup_app_l_Some _ _ _ _ Hl).
  - destruct ((procs s ++ [LSelect]) !! j) as [l|] eqn:Hl'; [|done].
    apply lookup_app_Some in Hl' as [Hl'|[_ Hl']]; [congruence|].
    by apply list_lookup_singleton_Some in Hl' as [_ <-].
Qed.

Lemma trace_ok_step s s' : wf n s → trace_ok n s → step n s s' → trace_ok n s'.
Proof.
  intros Hwf [Hmain Hfin] Hstep.
  pose proof (wf_procs _ _ Hwf) as Hprocs. pose proof (wf_bound _ _ Hwf) as Hbound.
  pose proof (wf_ring _ _ Hwf) as Hring.
  step_cases Hstep.
  all: try rewrite Hm in *.
  all: try (pose proof (wf_agent_seat _ _ _ _ Hwf Hl Hp) as [Hi ->]).
  all: split;
    [ unfold main_events; simpl; rewrite ?filter_app, ?filter_cons, ?filter_nil;
      simpl; unfold main_events in Hmain; rewrite ?Hmain, ?app_nil_r; try done
    | intros j;
      try (erewrite (announced_insert s _ _ _ _ j) by (done || reflexivity));
      try (erewrite (announced_go s _ j) by reflexivity);
      unfold occurrences; simpl;
      rewrite ?filter_app, ?length_app, ?filter_cons, ?filter_nil;
      fold (occurrences (EvFinished j) s); rewrite Hfin; unfold announced; simpl;
      repeat case_decide; simplify_eq; rewrite ?Hl; simpl; try done; try lia ].
  - (* exit of the range loop *)
    destruct (Hring ltac:(done)) as [Ht _]. rewrite Ht, table_length in H0.
    simpl. by replace k with n by lia.
  - (* go *)
    change (EvGo 0 :: list_fmap nat event EvGo (seq 1 k)) with (EvGo <$> seq 0 (S k)).
    by rewrite seq_S, fmap_app.
  - simpl. by rewrite <- app_assoc.
  - simpl. by rewrite <- app_assoc.
Qed.

(** Every reachable state satisfies the invariants. *)
Lemma reachable_inv s : reachable n s → wf n s ∧ locks_ok s ∧ trace_ok n s.
Proof.
  induction 1 as [|s s' _ (IHwf & IHlk & IHtr) Hstep].
  - split; [apply wf_init|]. split; [apply locks_ok_init|apply trace_ok_init].
  - split; [by eapply wf_step|]. split; [by eapply locks_ok_step|by eapply trace_ok_step].
Qed.

End invariants.

(** ** Absence of deadlock and termination after cancellation *)

(** Every goroutine holds its first fork and waits for its second one,
    which another goroutine holds: the circular wait of the classic table. *)
Definition circular_wait (n : nat) (s : state) : Prop :=
  ∀ i, i < n →
    ∃ p, philosophers s !! i = Some p ∧ procs s !! i = Some LLockSecond ∧
         heap s !! second_fork p = Some (mkFork true).

(** No thread can take a step although some thread is blocked. *)
Definition deadlocked (n : nat) (s : state) : Prop :=
  (∀ t s', exec n t s ≠ Next s') ∧ ∃ t, exec n t s = Blocked.

(** [main] has returned and every goroutine has exited. *)
Definition terminated (n : nat) (s : state) : Prop :=
  mpc s = MExited ∧ procs s = replicate n LExited.

(** On every execution from [s], whatever the scheduler does, a state
    satisfying [P] is reached after finitely many steps. *)
Inductive inevitably (n : nat) (P : state → Prop) : state → Prop :=
| inev_now s : P s → inevitably n P s
| inev_later s :
    (∃ s', step n s s') → (∀ s', step n s s' → inevitably n P s') → inevitably n P s.

(** Statements left to goroutine [i] once [done] is closed. *)
Definition rank (l : loc) : nat :=
  match l with
  | LExited => 0
  | LDeferDone => 1
  | LFinishPrint => 2
  | LSelect => 3
  | LUnlockRight => 4
  | LUnlockLeft => 5
  | LEatSleep => 6
  | LEatPrint => 7
  | LLockSecond => 8
  | LLockFirst => 9
  | LThinkSleep => 10
  | LThinkPrint => 11
  end.

Definition mrank (m : mloc) : nat :=
  match m with
  | MExited => 0
  | MPrintln => 1
  | MWait => 2
  | _ => 3
  end.

Definition measure (s : state) : nat := mrank (mpc s) + sum_list (rank <$> procs s).

Section enabled.
Variable n : nat.

Lemma first_fork_seat i :
  first_fork (seat n i) = if decide (i mod 2 = 0) then i else (i + 1) mod n.
Proof.
  unfold first_fork, lock_order, seat. cbn [id leftFork rightFork].
  destruct (Nat.eqb_spec (i mod 2) 0); case_decide; done.
Qed.

Lemma second_fork_seat i :
  second_fork (seat n i) = if decide (i mod 2 = 0) then (i + 1) mod n else i.
Proof.
  unfold second_fork, lock_order, seat. cbn [id leftFork rightFork].
  destruct (Nat.eqb_spec (i mod 2) 0); case_decide; done.
Qed.

Lemma seat_forks_lt i :
  i < n →
  leftFork (seat n i) < n ∧ rightFork (seat n i) < n ∧
  first_fork (seat n i) < n ∧ second_fork (seat n i) < n.
Proof.
  intros Hi. pose proof (succ_mod_lt n i Hi).
  rewrite first_fork_seat, second_fork_seat. simpl. repeat case_decide; lia.
Qed.

Lemma heap_lookup_seat s i l f :
  wf n s → procs s !! i = Some l → f < n → ∃ b, heap s !! f = Some (mkFork b).
Proof.
  intros Hwf Hl Hf.
  assert (mpc s ≠ MBuild) as Hm.
  { intros Hm. apply lookup_lt_Some in Hl. rewrite (wf_procs _ _ Hwf), Hm in Hl.
    simpl in Hl. lia. }
  destruct (wf_ring _ _ Hwf Hm) as [_ Hlen].
  destruct (heap s !! f) as [[b]|] eqn:E; [by exists b|].
  apply lookup_ge_None in E. lia.
Qed.

(** A goroutine that has not exited can take a step unless it waits in
    one of its two [Lock] calls for a locked mutex. *)
Lemma agent_enabled_or_waits s i l :
  wf n s → locks_ok s → procs s !! i = Some l → l ≠ LExited →
  (∃ s', exec_agent i s = Next s') ∨
  (l = LLockFirst ∧ heap s !! first_fork (seat n i) = Some (mkFork true)) ∨
  (l = LLockSecond ∧ heap s !! second_fork (seat n i) = Some (mkFork true)).
Proof.
  intros Hwf Hlk Hl Hlive.
  pose proof (wf_agent_philosopher n s i l Hwf Hl) as Hp.
  pose proof (wf_agent_lt n s i l Hwf Hl) as Hi.
  destruct (seat_forks_lt i Hi) as (Hlf & Hrf & Hff & Hsf).
  assert (∀ f, f ∈ held (seat n i) l → heap s !! f = Some (mkFork true)) as Hheld.
  { intros f Hf. apply (lk_complete s Hlk i). by apply (holds_self s i l (seat n i)). }
  assert (∀ s', agent_step i (seat n i) s l s' → ∃ s', exec_agent i s = Next s') as Hgo.
  { intros s' Hs. exists s'. apply exec_agent_Next. by exists l, (seat n i). }
  destruct l; try done.
  - destruct (done s) eqn:Hd; left; eapply Hgo; by constructor.
  - left; eapply Hgo; by constructor.
  - left; eapply Hgo; by constructor.
  - destruct (heap_lookup_seat s i _ _ Hwf Hl Hff) as [[] Hb].
    + right. by left.
    + left; eapply Hgo; by constructor.
  - destruct (heap_lookup_seat s i _ _ Hwf Hl Hsf) as [[] Hb].
    + right. by right.
    + left; eapply Hgo; by constructor.
  - left; eapply Hgo; by constructor.
  - left; eapply Hgo; by constructor.
  - left; eapply Hgo. constructor. apply Hheld. simpl. by left.
  - left; eapply Hgo. constructor. apply Hheld. simpl. by left.
  - left; eapply Hgo; by constructor.
  - assert (0 < wg s) as Hwg.
    { rewrite (wf_wg _ _ Hwf).
      pose proof (filter_lookup_pos live (procs s) i LDeferDone Hl ltac:(done)). lia. }
    destruct (wg s) as [|c] eqn:Hc; [lia|].
    left; eapply Hgo. by econstructor.
Qed.

(** A locked fork is held by a goroutine that is past its first [Lock]. *)
Lemma locked_holder s f :
  wf n s → locks_ok s → heap s !! f = Some (mkFork true) →
  ∃ j l, procs s !! j = Some l ∧ j < n ∧ f ∈ held (seat n j) l.
Proof.
  intros Hwf Hlk Hf. destruct (lk_sound s Hlk f Hf) as (j & l & p & Hl & Hp & Hin).
  destruct (wf_agent_seat n s j l p Hwf Hl Hp) as [Hj ->]. by exists j, l.
Qed.

(** Whoever holds fork [f] can step, or is itself waiting for its second
    fork with [f] as its first. *)
Lemma holder_enabled_or_waits s f :
  wf n s → locks_ok s → heap s !! f = Some (mkFork true) →
  (∃ i s', exec_agent i s = Next s') ∨
  (∃ m, m < n ∧ procs s !! m = Some LLockSecond ∧ first_fork (seat n m) = f ∧
        heap s !! second_fork (seat n m) = Some (mkFork true)).
Proof.
  intros Hwf Hlk Hf. destruct (locked_holder s f Hwf Hlk Hf) as (m & l & Hl & Hm & Hin).
  assert (l ≠ LExited) as Hlive by (intros ->; by apply elem_of_nil in Hin).
  destruct (agent_enabled_or_waits s m l Hwf Hlk Hl Hlive) as [[s' Hs]|[[-> Hw]|[-> Hw]]].
  - left. by exists m, s'.
  - by apply elem_of_nil in Hin.
  - right. exists m. split; [done|]. split; [done|]. split; [|done].
    simpl in Hin. by apply list_elem_of_singleton in Hin.
Qed.

(** Once [main] is past [wg.Wait()], every goroutine has exited. *)
Lemma joined_all_exited s :
  wf n s → mpc s = MPrintln ∨ mpc s = MExited → procs s = replicate n LExited.
Proof.
  intros Hwf Hm. pose proof (wf_joined _ _ Hwf Hm) as Hz.
  pose proof (wf_wg _ _ Hwf) as Hwg. pose proof (wf_procs _ _ Hwf) as Hlen.
  assert (length (procs s) = n) as Hlen' by (destruct Hm as [Hm|Hm]; by rewrite Hm in Hlen).
  symmetry. apply replicate_as_Forall. split; [done|].
  apply Forall_lookup. intros i l Hl.
  destruct (decide (l = LExited)) as [->|Hne]; [done|].
  pose proof (filter_lookup_pos live (procs s) i l Hl Hne). lia.
Qed.

(** No reachable statement panics. *)
Lemma no_panic s t : 1 ≤ n → wf n s → locks_ok s → exec n t s ≠ Panic.
Proof.
  intros Hn Hwf Hlk. destruct t as [|i]; simpl.
  - unfold exec_main. pose proof (wf_done _ _ Hwf) as Hd.
    destruct (mpc s) eqn:Hm; simpl in Hd; try done.
    + by rewrite build_ring_spec.
    + by case_decide.
    + by rewrite Hd.
    + by destruct (wg s).
  - destruct (procs s !! i) as [l|] eqn:Hl; [|by unfold exec_agent; rewrite Hl].
    destruct (decide (l = LExited)) as [->|Hlive].
    { unfold exec_agent. rewrite Hl. by destruct (philosophers s !! i). }
    destruct (agent_enabled_or_waits s i l Hwf Hlk Hl Hlive) as [[s' ->]|[[-> Hw]|[-> Hw]]];
      [done|..];
      unfold exec_agent; rewrite Hl, (wf_agent_philosopher n s i _ Hwf Hl);
      unfold mutex_lock; by rewrite Hw.
Qed.

Lemma circular_wait_stuck s i s' :
  wf n s → circular_wait n s → exec_agent i s ≠ Next s'.
Proof.
  intros Hwf Hcw Hs. apply exec_agent_Next in Hs as (l & p & Hl & Hp & Hs).
  pose proof (wf_agent_lt n s i l Hwf Hl) as Hi.
  destruct (Hcw i Hi) as (p' & Hp' & Hl' & Hw). simplify_eq.
  inversion Hs; congruence.
Qed.

(** After cancellation every step brings the system closer to the end. *)
Lemma measure_step s s' :
  wf n s → done s = true → step n s s' → done s' = true ∧ measure s' < measure s.
Proof.
  intros Hwf Hd Hstep. pose proof (wf_done _ _ Hwf) as Hc.
  step_cases Hstep.
  all: try (rewrite Hm in Hc; simpl in Hc; congruence).
  all: unfold measure; simpl; rewrite ?Hm; simpl; split; try done; try lia.
  all: rewrite list_fmap_insert;
    match goal with
    | Hl : procs ?s !! ?i = Some ?l |- context [<[?i:=rank ?l']> _] =>
        pose proof (sum_list_insert (rank <$> procs s) i (rank l) (rank l')
                      ltac:(by rewrite list_lookup_fmap, Hl)) as Hsum
    end; simpl in *; lia || congruence.
Qed.

End enabled.

Section progress.
Variable n : nat.
Hypothesis Hn : 2 ≤ n.

(** The arithmetic heart of the even/odd rule: waiting chains along the
    ring have length at most two. *)
Lemma no_long_chain j m q :
  j < n → m < n → q < n →
  first_fork (seat n m) = second_fork (seat n j) →
  first_fork (seat n q) = second_fork (seat n m) →
  False.
Proof.
  intros Hj Hm Hq. rewrite !first_fork_seat, !second_fork_seat.
  pose proof (mod2_cases j). pose proof (mod2_cases m). pose proof (mod2_cases q).
  pose proof (Nat.div_mod_eq j 2). pose proof (Nat.div_mod_eq m 2).
  pose proof (Nat.div_mod_eq q 2).
  destruct (succ_mod_cases n j Hj) as [[? Ej]|[? Ej]];
    destruct (succ_mod_cases n m Hm) as [[? Em]|[? Em]];
    destruct (succ_mod_cases n q Hq) as [[? Eq]|[? Eq]];
    rewrite ?Ej, ?Em, ?Eq; repeat case_decide; lia.
Qed.

(** No waiting cycle: as long as some goroutine has not exited, some
    goroutine can take a step. *)
Lemma agents_progress s i l :
  wf n s → locks_ok s → procs s !! i = Some l → l ≠ LExited →
  ∃ j s', exec_agent j s = Next s'.
Proof.
  intros Hwf Hlk Hl Hlive.
  assert (∀ f, heap s !! f = Some (mkFork true) → ∃ j s', exec_agent j s = Next s') as Hchain.
  { intros f Hf.
    destruct (holder_enabled_or_waits n s f Hwf Hlk Hf) as [?|(m & Hm & Hlm & Hfm & Hwm)]; [done|].
    destruct (holder_enabled_or_waits n s _ Hwf Hlk Hwm) as [?|(q & Hq & Hlq & Hfq & Hwq)]; [done|].
    destruct (holder_enabled_or_waits n s _ Hwf Hlk Hwq) as [?|(r & Hr & Hlr & Hfr & Hwr)]; [done|].
    destruct (no_long_chain m q r Hm Hq Hr Hfq Hfr). }
  destruct (agent_enabled_or_waits n s i l Hwf Hlk Hl Hlive) as [[s' Hs]|[[-> Hw]|[-> Hw]]].
  - by exists i, s'.
  - by eapply Hchain.
  - by eapply Hchain.
Qed.

(** Global progress: a reachable state is final or has a successor. *)
Lemma progress s :
  wf n s → locks_ok s → terminated n s ∨ ∃ t s', exec n t s = Next s'.
Proof.
  intros Hwf Hlk.
  assert (∀ s', main_step n s (mpc s) s' → terminated n s ∨ ∃ t s', exec n t s = Next s')
    as Hmain.
  { intros s' Hs. right. exists Main, s'. by apply exec_main_Next. }
  pose proof (wf_done _ _ Hwf) as Hd.
  destruct (mpc s) eqn:Hm; simpl in Hd.
  - eapply Hmain. apply ms_build. apply build_ring_spec. lia.
  - destruct (decide (k < length (philosophers s))).
    + eapply Hmain. by apply ms_range_body.
    + eapply Hmain. by apply ms_range_exit.
  - eapply Hmain. apply ms_go.
  - eapply Hmain. apply ms_sleep.
  - eapply Hmain. by apply ms_close.
  - destruct (wg s) as [|c] eqn:Hwg.
    + eapply Hmain. by apply ms_wait.
    + pose proof (wf_wg _ _ Hwf) as Hc. rewrite Hwg, Hm in Hc. simpl in Hc.
      destruct (filter_length_pos live (procs s) ltac:(lia)) as (i & l & Hl & Hlive).
      destruct (agents_progress s i l Hwf Hlk Hl Hlive) as (j & s' & Hs).
      right. by exists (Agent j), s'.
  - eapply Hmain. apply ms_println.
  - left. split; [done|]. apply (joined_all_exited n); [done|]. by right.
Qed.

End progress.

(** ** Main results about the philosophers *)

Lemma run_reachable n sched s s' :
  reachable n s → run n sched s = Some s' → reachable n s'.
Proof.
  revert s. induction sched as [|t sched IH]; intros s Hr Hrun; simpl in Hrun.
  - by simplify_eq.
  - destruct (exec n t s) as [s1| | |] eqn:E; try done.
    apply (IH s1); [|done]. apply reachable_step with s; [done|]. by exists t.
Qed.

(** [main] up to and including the loop of line 102: build, then
    [wg.Add(1)] and [go] for each philosopher, then the loop exit. *)
Definition startup (n : nat) : list tid := replicate (2 * n + 2) Main.

(** Goroutine [i] runs [k] statements in a row. *)
Definition burst (i k : nat) : list tid := replicate k (Agent i).

(** A schedule for five philosophers: all are started; 0, 2 and 4 take
    their first fork and 0 also its second; 1 and 3 reach their first
    [Lock] and wait; then [main] sleeps and closes [done]. *)
Definition sample_schedule : list tid :=
  startup 5 ++ burst 0 5 ++ burst 2 4 ++ burst 4 4 ++ burst 1 3 ++ burst 3 3 ++ [Main; Main].

Definition sample_state : state :=
  default init (run numPhilosophers sample_schedule init).

Lemma sample_state_reachable : reachable numPhilosophers sample_state.
Proof.
  apply (run_reachable numPhilosophers sample_schedule init); [apply reachable_init|].
  vm_compute. reflexivity.
Qed.

Lemma inevitably_terminated n s :
  2 ≤ n → reachable n s → done s = true → inevitably n (terminated n) s.
Proof.
  intros Hn. remember (measure s) as k eqn:Hk. revert s Hk.
  induction (lt_wf k) as [k _ IH]. intros s -> Hr Hd.
  destruct (reachable_inv n s Hr) as (Hwf & Hlk & _).
  destruct (progress n Hn s Hwf Hlk) as [Hterm|(t & s' & Hs)].
  - by apply inev_now.
  - apply inev_later.
    + exists s'. by exists t.
    + intros s1 Hs1. destruct (measure_step n s s1 Hwf Hd Hs1) as [Hd1 Hlt].
      apply (IH (measure s1) Hlt s1 eq_refl); [|done].
      by apply reachable_step with s.
Qed.

(** C1.  Under the even/odd acquisition order, for every table of at
    least two philosophers: no reachable state is a circular wait (every
    philosopher holding its first fork and waiting for its second); no
    reachable state is deadlocked in any other way either, and no statement
    panics; and once [done] is closed, every execution, whatever the
    scheduler does, reaches after finitely many steps the state in which all
    goroutines have exited and [main] has returned. *)
Theorem no_deadlock_and_termination (n : nat) (s : state) :
  2 ≤ n → reachable n s →
  ¬ circular_wait n s ∧
  ¬ deadlocked n s ∧
  (∀ t, exec n t s ≠ Panic) ∧
  (done s = true → inevitably n (terminated n) s).
Proof.
  intros Hn Hr. destruct (reachable_inv n s Hr) as (Hwf & Hlk & _).
  split; [|split; [|split]].
  - intros Hcw. assert (0 < n) as H0 by lia.
    destruct (Hcw 0 H0) as (p & Hp & Hl & Hw).
    destruct (agents_progress n Hn s 0 LLockSecond Hwf Hlk Hl ltac:(done)) as (j & s' & Hs).
    by apply (circular_wait_stuck n s j s' Hwf Hcw).
  - intros [Hstuck [t Hb]].
    destruct (progress n Hn s Hwf Hlk) as [[Hm Hps]|(t' & s' & Hs)].
    + destruct t as [|i]; simpl in Hb.
      * unfold exec_main in Hb. by rewrite Hm in Hb.
      * unfold exec_agent in Hb. rewrite Hps in Hb.
        destruct (replicate n LExited !! i) as [l|] eqn:Hl; [|done].
        apply lookup_replicate in Hl as [-> _].
        by destruct (philosophers s !! i).
    + by apply (Hstuck t' s').
  - intros t. apply no_panic; [lia|done..].
  - by apply inevitably_terminated.
Qed.

(** The statement of C1 at the five-philosopher table of the program, in
    a state where [done] is closed while forks are held and waited for. *)
Lemma no_deadlock_and_termination_witness :
  2 ≤ numPhilosophers ∧ reachable numPhilosophers sample_state ∧
  done sample_state = true ∧
  ¬ circular_wait numPhilosophers sample_state ∧
  inevitably numPhilosophers (terminated numPhilosophers) sample_state.
Proof.
  assert (2 ≤ numPhilosophers) as Hn by (unfold numPhilosophers; lia).
  pose proof sample_state_reachable as Hr.
  destruct (no_deadlock_and_termination numPhilosophers sample_state Hn Hr)
    as (Hcw & _ & _ & Hterm).
  split; [done|]. split; [done|]. split; [reflexivity|]. split; [done|].
  apply Hterm. reflexivity.
Defined.

(** The bound on the table size is needed: a single philosopher has the
    same fork on both sides and blocks on its own second [Lock]. *)
Example single_philosopher_waits_forever :
  ∃ s, reachable 1 s ∧ circular_wait 1 s ∧ ∀ b, exec 1 (Agent 0) (set_done b s) = Blocked.
Proof.
  exists (default init (run 1 (startup 1 ++ burst 0 4) init)). split; [|split].
  - apply (run_reachable 1 (startup 1 ++ burst 0 4) init); [apply reachable_init|].
    vm_compute. reflexivity.
  - intros i Hi. assert (i = 0) as -> by lia.
    exists (mkPhilosopher 0 0 0). by vm_compute.
  - intros b. by vm_compute.
Qed.

(** C3.  In every reachable state, each fork is held by at most one
    goroutine, a fork is locked exactly when somebody holds it, and a step
    changes a fork only as a [Lock] of a free fork by the goroutine that
    then holds it, or as an [Unlock] by the goroutine that held it. *)
Theorem mutual_exclusion (n : nat) (s : state) :
  reachable n s →
  (∀ f, length (holders n s f) ≤ 1) ∧
  (∀ i f, holds s i f → i < n ∧ heap s !! f = Some (mkFork true)) ∧
  (∀ f, heap s !! f = Some (mkFork true) → ∃ i, holds s i f) ∧
  (∀ t s' f, mpc s ≠ MBuild → exec n t s = Next s' → heap s' !! f ≠ heap s !! f →
     ∃ i, t = Agent i ∧
       ((heap s !! f = Some (mkFork false) ∧ ¬ holds s i f ∧ holds s' i f) ∨
        (heap s' !! f = Some (mkFork false) ∧ holds s i f ∧ ¬ holds s' i f))).
Proof.
  intros Hr. destruct (reachable_inv n s Hr) as (Hwf & Hlk & _).
  split; [|split; [|split]].
  - intros f. unfold holders. apply filter_at_most_one; [apply NoDup_seq|].
    intros i j _ _ Hi Hj. by apply (lk_excl s Hlk i j f).
  - intros i f Hif. split; [|by apply (lk_complete s Hlk i)].
    destruct Hif as (l & p & Hl & _). by apply (wf_agent_lt n s i l).
  - apply (lk_sound s Hlk).
  - intros t s' f Hnb Hs Hne.
    assert (reachable n s') as Hr' by (apply reachable_step with s; [done|by exists t]).
    destruct (reachable_inv n s' Hr') as (_ & Hlk' & _).
    assert (step n s s') as Hstep by (by exists t).
    assert (∀ g b, f ≠ g → heap s' = <[g:=b]> (heap s) → False) as Hother.
    { intros g b Hfg Hh. apply Hne. rewrite Hh. by rewrite list_lookup_insert_ne. }
    destruct t as [|i]; simpl in Hs.
    { apply exec_main_Next in Hs. inversion Hs; subst; simpl in Hne; congruence. }
    exists i. split; [done|].
    apply exec_agent_Next in Hs as (l & p & Hl & Hp & Hs).
    inversion Hs; subst; simpl in Hne; try done.
    + destruct (decide (f = first_fork p)) as [->|Hf]; [|by destruct (Hother _ _ Hf eq_refl)].
      left. split; [done|]. split.
      * intros Hh. apply (lk_complete s Hlk) in Hh. congruence.
      * apply (holds_update s _ i LLockFirst LLockSecond p i); try done.
        rewrite decide_True by done. simpl. by left.
    + destruct (decide (f = second_fork p)) as [->|Hf]; [|by destruct (Hother _ _ Hf eq_refl)].
      left. split; [done|]. split.
      * intros Hh. apply (lk_complete s Hlk) in Hh. congruence.
      * apply (holds_update s _ i LLockSecond LEatPrint p i); try done.
        rewrite decide_True by done. simpl. rewrite lock_order_perm. by left.
    + destruct (decide (f = leftFork p)) as [->|Hf]; [|by destruct (Hother _ _ Hf eq_refl)].
      assert (leftFork p < length (heap s)) by (by eapply lookup_lt_Some).
      assert (heap (set_loc i LUnlockRight
                (set_heap (<[leftFork p:=mkFork false]> (heap s)) s)) !! leftFork p
              = Some (mkFork false)) as Hnew by (simpl; by rewrite list_lookup_insert_eq).
      right. split; [done|]. split.
      * apply (holds_self s i LUnlockLeft p); try done. simpl. by left.
      * intros Hh. apply (lk_complete _ Hlk') in Hh. congruence.
    + destruct (decide (f = rightFork p)) as [->|Hf]; [|by destruct (Hother _ _ Hf eq_refl)].
      assert (rightFork p < length (heap s)) by (by eapply lookup_lt_Some).
      assert (heap (set_loc i LSelect
                (set_heap (<[rightFork p:=mkFork false]> (heap s)) s)) !! rightFork p
              = Some (mkFork false)) as Hnew by (simpl; by rewrite list_lookup_insert_eq).
      right. split; [done|]. split.
      * apply (holds_self s i LUnlockRight p); try done. simpl. by left.
      * intros Hh. apply (lk_complete _ Hlk') in Hh. congruence.
Qed.

(** The statement of C3 in the sample state, where forks 0, 1, 2 and 4
    are all held. *)
Lemma mutual_exclusion_witness :
  reachable numPhilosophers sample_state ∧
  holders numPhilosophers sample_state 0 = [0] ∧
  holders numPhilosophers sample_state 1 = [0] ∧
  (∀ f, length (holders numPhilosophers sample_state f) ≤ 1).
Proof.
  pose proof sample_state_reachable as Hr.
  split; [done|]. split; [reflexivity|]. split; [reflexivity|].
  exact (proj1 (mutual_exclusion numPhilosophers sample_state Hr)).
Defined.

(** C4.  For every ring size of at least two the builder succeeds and
    seats philosopher [i] with left (primary) fork [i] and right
    (secondary) fork [(i+1) mod n]; every fork [f] is the primary fork of
    philosopher [f] only and the secondary fork of philosopher
    [(f-1) mod n] only (written [(f+n-1) mod n] on naturals), these two are
    different philosophers, so exactly two philosophers refer to [f]; and
    the two forks of a philosopher are distinct. *)
Theorem ring_topology (n : nat) :
  2 ≤ n →
  ∃ r, build_ring n = Some r ∧
    length (ring_heap r) = n ∧ length (ring_philosophers r) = n ∧
    (∀ i, i < n →
       ∃ p, ring_philosophers r !! i = Some p ∧
            id p = i ∧ leftFork p = i ∧ rightFork p = (i + 1) mod n ∧
            leftFork p ≠ rightFork p) ∧
    (∀ f, f < n →
       primary_of f (ring_philosophers r) = [seat n f] ∧
       secondary_of f (ring_philosophers r) = [seat n ((f + n - 1) mod n)] ∧
       f ≠ (f + n - 1) mod n ∧
       length (referrers f (ring_philosophers r)) = 2).
Proof.
  intros Hn. eexists. split; [apply build_ring_spec; lia|]. simpl.
  split; [by rewrite length_replicate|]. split; [apply table_length|].
  assert (∀ f, f < n →
            primary_of f (table n) = [seat n f] ∧
            secondary_of f (table n) = [seat n ((f + n - 1) mod n)]) as Hroles.
  { intros f Hf. pose proof (pred_mod_lt n f Hf) as Hpf. split.
    - apply filter_unique; [apply table_NoDup|apply elem_of_table; by exists f|].
      intros p Hp. apply elem_of_table in Hp as (i & Hi & ->). simpl.
      split; [by intros ->|]. intros Heq. by injection Heq.
    - apply filter_unique; [apply table_NoDup|apply elem_of_table; by eexists|].
      intros p Hp. apply elem_of_table in Hp as (i & Hi & ->). simpl. split.
      + intros Hr. f_equal. apply (succ_mod_inj n); [done..|].
        by rewrite succ_pred_mod.
      + intros Heq. injection Heq as ->. by apply succ_pred_mod. }
  split.
  - intros i Hi. exists (seat n i). split; [by apply table_lookup|]. simpl.
    split; [done|]. split; [done|]. split; [done|].
    intros Heq. by apply (succ_mod_ne n i).
  - intros f Hf. destruct (Hroles f Hf) as [Hprim Hsec].
    split; [done|]. split; [done|]. split.
    + intros Heq. apply (succ_mod_ne n f Hn Hf).
      rewrite Heq at 1. by apply succ_pred_mod.
    + unfold referrers.
      rewrite (filter_or_length (λ p, leftFork p = f) (λ p, rightFork p = f)).
      * unfold primary_of in Hprim. unfold secondary_of in Hsec.
        by rewrite Hprim, Hsec.
      * intros p Hp Hl Hr. apply elem_of_table in Hp as (i & Hi & ->).
        simpl in Hl, Hr. apply (succ_mod_ne n i Hn Hi). congruence.
Qed.

(** The statement of C4 for the table of the program. *)
Lemma ring_topology_witness :
  2 ≤ numPhilosophers ∧
  ∃ r, build_ring numPhilosophers = Some r ∧
    length (ring_heap r) = numPhilosophers ∧
    length (ring_philosophers r) = numPhilosophers ∧
    (∀ i, i < numPhilosophers →
       ∃ p, ring_philosophers r !! i = Some p ∧
            id p = i ∧ leftFork p = i ∧ rightFork p = (i + 1) mod numPhilosophers ∧
            leftFork p ≠ rightFork p) ∧
    (∀ f, f < numPhilosophers →
       primary_of f (ring_philosophers r) = [seat numPhilosophers f] ∧
       secondary_of f (ring_philosophers r)
         = [seat numPhilosophers ((f + numPhilosophers - 1) mod numPhilosophers)] ∧
       f ≠ (f + numPhilosophers - 1) mod numPhilosophers ∧
       length (referrers f (ring_philosophers r)) = 2).
Proof.
  assert (2 ≤ numPhilosophers) as Hn by (unfold numPhilosophers; lia).
  split; [done|]. exact (ring_topology numPhilosophers Hn).
Defined.



(** C2.  A started philosopher [i] calls [Lock] at exactly two program
    points, one after the other: with an even identity first on fork [i]
    (its left fork, the lower one by ring position) and then on fork
    [(i+1) mod n]; with an odd identity in the reverse order; no other
    statement of the goroutine locks anything.  At the wrap boundary
    ([i = n-1]) the order is by ring position: an even philosopher locks
    fork [n-1] before fork 0. *)
Theorem acquisition_order (n : nat) (s : state) (i : nat) (l : loc) :
  reachable n s → procs s !! i = Some l →
  (l = LLockFirst →
     exec n (Agent i) s =
     then_do (mutex_lock (if i mod 2 =? 0 then i else (i + 1) mod n) s)
             (set_loc i LLockSecond)) ∧
  (l = LLockSecond →
     exec n (Agent i) s =
     then_do (mutex_lock (if i mod 2 =? 0 then (i + 1) mod n else i) s)
             (set_loc i LEatPrint)) ∧
  (l ≠ LLockFirst → l ≠ LLockSecond →
     ∀ s' f, exec n (Agent i) s = Next s' →
       heap s' !! f = Some (mkFork true) → heap s !! f = Some (mkFork true)) ∧
  (i + 1 = n →
     lock_order (seat n i) = if i mod 2 =? 0 then (n - 1, 0) else (0, n - 1)).
Proof.
  intros Hr Hl. destruct (reachable_inv n s Hr) as (Hwf & _ & _).
  pose proof (wf_agent_philosopher n s i l Hwf Hl) as Hp.
  assert (first_fork (seat n i) = if i mod 2 =? 0 then i else (i + 1) mod n) as Hfst.
  { unfold first_fork, lock_order, seat. cbn [id leftFork rightFork].
    by destruct (i mod 2 =? 0). }
  assert (second_fork (seat n i) = if i mod 2 =? 0 then (i + 1) mod n else i) as Hsnd.
  { unfold second_fork, lock_order, seat. cbn [id leftFork rightFork].
    by destruct (i mod 2 =? 0). }
  split; [|split; [|split]].
  - intros ->. unfold exec, exec_agent. by rewrite Hl, Hp, Hfst.
  - intros ->. unfold exec, exec_agent. by rewrite Hl, Hp, Hsnd.
  - intros H1 H2 s' f Hs Hf. simpl in Hs.
    apply exec_agent_Next in Hs as (l' & p & Hl' & Hp' & Hs). simplify_eq.
    inversion Hs; subst; simpl in Hf; try done.
    + destruct (decide (f = leftFork (seat n i))) as [->|Hne].
      * rewrite list_lookup_insert_eq in Hf by (by eapply lookup_lt_Some). done.
      * by rewrite list_lookup_insert_ne in Hf.
    + destruct (decide (f = rightFork (seat n i))) as [->|Hne].
      * rewrite list_lookup_insert_eq in Hf by (by eapply lookup_lt_Some). done.
      * by rewrite list_lookup_insert_ne in Hf.
  - intros Hwrap. unfold lock_order, seat. cbn [id leftFork rightFork].
    replace ((i + 1) mod n) with 0 by (rewrite Hwrap; symmetry; apply Nat.Div0.mod_same).
    replace (n - 1) with i by lia. done.
Qed.

(** The statement of C2 for philosopher 4 of the sample state, which sits
    at the wrap boundary with its first fork (4) in hand: its second
    [Lock] is on fork 0. *)
Lemma acquisition_order_witness :
  reachable numPhilosophers sample_state ∧
  procs sample_state !! 4 = Some LLockSecond ∧
  exec numPhilosophers (Agent 4) sample_state =
    then_do (mutex_lock 0 sample_state) (set_loc 4 LEatPrint) ∧
  lock_order (seat numPhilosophers 4) = (4, 0).
Proof.
  pose proof sample_state_reachable as Hr.
  assert (procs sample_state !! 4 = Some LLockSecond) as Hl by reflexivity.
  destruct (acquisition_order numPhilosophers sample_state 4 LLockSecond Hr Hl)
    as (_ & Hsnd & _ & Hwrap).
  split; [done|]. split; [done|]. split.
  - exact (Hsnd eq_refl).
  - exact (Hwrap eq_refl).
Defined.

(** Program points from which the goroutine has observed the closed
    [done] channel. *)
Definition observed (l : loc) : Prop := l = LFinishPrint ∨ l = LDeferDone ∨ l = LExited.

(** The think/eat cycle of lines 41-42, statement by statement. *)
Definition cycle_next (l : loc) : option loc :=
  match l with
  | LThinkPrint => Some LThinkSleep
  | LThinkSleep => Some LLockFirst
  | LLockFirst => Some LLockSecond
  | LLockSecond => Some LEatPrint
  | LEatPrint => Some LEatSleep
  | LEatSleep => Some LUnlockLeft
  | LUnlockLeft => Some LUnlockRight
  | LUnlockRight => Some LSelect
  | _ => None
  end.

Lemma set_loc_lookup s i l l' : procs s !! i = Some l → procs (set_loc i l' s) !! i = Some l'.
Proof. intros Hl. simpl. apply list_lookup_insert_eq. by eapply lookup_lt_Some. Qed.

(** A goroutine is past the [select] on its way out only when [done] is
    closed. *)
Lemma observed_done n s i l :
  reachable n s → procs s !! i = Some l → observed l → done s = true.
Proof.
  intros Hr. revert i l. induction Hr as [|s s' Hr IH Hstep]; intros i l Hl Hobs.
  - done.
  - step_cases Hstep; simpl in *; try (by eapply IH); try done.
    { apply lookup_app_Some in Hl as [Hl|[_ Hl]]; [by eapply IH|].
      apply list_lookup_singleton_Some in Hl as [_ <-].
      by destruct Hobs as [?|[?|?]]. }
    all: match goal with
         | Hl : <[?j:=_]> _ !! ?i = Some _ |- _ =>
             destruct (decide (i = j)) as [->|Hne];
             [ rewrite list_lookup_insert_eq in Hl by (by eapply lookup_lt_Some);
               simplify_eq
             | rewrite list_lookup_insert_ne in Hl by done; by eapply IH ]
         end.
    all: try done.
    all: try (by destruct Hobs as [?|[?|?]]).
    all: eapply IH; [done|]; unfold observed; auto.
Qed.

(** What the statements of a goroutine do, in any state at all. *)
Lemma agent_statement_facts (n : nat) (s : state) (i : nat) (l : loc) (p : Philosopher) :
  procs s !! i = Some l → philosophers s !! i = Some p →
  (l ≠ LSelect →
     ∀ b, exec n (Agent i) (set_done b s) = then_do (exec n (Agent i) s) (set_done b)) ∧
  (l = LSelect →
     exec n (Agent i) s = Next (set_loc i (if done s then LFinishPrint else LThinkPrint) s)) ∧
  (observed l →
     ∀ s', exec n (Agent i) s = Next s' →
       heap s' = heap s ∧ ∃ l', procs s' !! i = Some l' ∧ observed l') ∧
  (∀ l', cycle_next l = Some l' →
     ∀ s', exec n (Agent i) s = Next s' → procs s' !! i = Some l') ∧
  ((l = LLockFirst ∧ heap s !! first_fork p = Some (mkFork true)) ∨
   (l = LLockSecond ∧ heap s !! second_fork p = Some (mkFork true)) →
     ∀ b, exec n (Agent i) (set_done b s) = Blocked) ∧
  (∀ t s', t ≠ Agent i → exec n t s = Next s' → procs s' !! i = Some l).
Proof.
  intros Hl Hp. split; [|split; [|split; [|split; [|split]]]].
  - intros Hne b. unfold exec, exec_agent. simpl. rewrite Hl, Hp.
    destruct l; try done; simpl;
      unfold mutex_lock, mutex_unlock, wg_done; simpl;
      repeat case_match; done.
  - intros ->. unfold exec, exec_agent. rewrite Hl, Hp. by destruct (done s).
  - intros Hobs s' Hs. simpl in Hs.
    apply exec_agent_Next in Hs as (l0 & p0 & Hl0 & Hp0 & Hs). simplify_eq.
    destruct Hobs as [->|[->| ->]]; inversion Hs; subst.
    + split; [done|]. exists LDeferDone. split; [|right; by left].
      eapply set_loc_lookup. simpl. done.
    + split; [done|]. exists LExited. split; [|right; by right].
      eapply set_loc_lookup. simpl. done.
  - intros l' Hnext s' Hs. simpl in Hs.
    apply exec_agent_Next in Hs as (l0 & p0 & Hl0 & Hp0 & Hs). simplify_eq.
    inversion Hs; subst; simpl in Hnext; simplify_eq;
      simpl; apply list_lookup_insert_eq; by eapply lookup_lt_Some.
  - intros [[-> Hw]|[-> Hw]] b; unfold exec, exec_agent; simpl; rewrite Hl, Hp;
      unfold mutex_lock; simpl; by rewrite Hw.
  - intros t s' Hne Hs. destruct t as [|j]; simpl in Hs.
    + apply exec_main_Next in Hs. inversion Hs; subst; simpl; try done.
      by apply lookup_app_l_Some.
    + assert (j ≠ i) as Hji by congruence.
      apply exec_agent_Next in Hs as (l0 & p0 & Hl0 & Hp0 & Hs).
      inversion Hs; subst; simpl; by rewrite list_lookup_insert_ne.
Qed.

Lemma inevitably_mono n (P Q : state → Prop) s :
  (∀ s', P s' → Q s') → inevitably n P s → inevitably n Q s.
Proof.
  intros HPQ. induction 1 as [s HP|s Hex _ IH].
  - apply inev_now. by apply HPQ.
  - by apply inev_later.
Qed.

(** C6.  A goroutine reads [done] only in the [select] at the top of its
    loop: everywhere else its statement is the same whether [done] is
    closed or not.  At the [select] it leaves the loop when [done] is
    closed and starts a think/eat cycle otherwise.  Once it has left the
    loop it prints its line, runs the deferred [wg.Done()] and is gone:
    both statements can always be executed and they change no fork; it is
    there only when [done] is closed.  Inside a cycle every statement other
    than a [Lock] on a locked fork can be executed, and leads to the next
    statement of the cycle, back to the [select] after the second [Unlock];
    a [Lock] on a locked fork stays blocked whether or not [done] is
    closed; and no other thread moves the goroutine.  With at least two
    philosophers, once [done] is closed the goroutine, wherever it is, has
    exited after finitely many steps on every schedule. *)
Theorem cooperative_cancellation (n : nat) (s : state) (i : nat) (l : loc) (p : Philosopher) :
  reachable n s → procs s !! i = Some l → philosophers s !! i = Some p →
  (l ≠ LSelect →
     ∀ b, exec n (Agent i) (set_done b s) = then_do (exec n (Agent i) s) (set_done b)) ∧
  (l = LSelect →
     exec n (Agent i) s = Next (set_loc i (if done s then LFinishPrint else LThinkPrint) s)) ∧
  (observed l →
     ∀ s', exec n (Agent i) s = Next s' →
       heap s' = heap s ∧ ∃ l', procs s' !! i = Some l' ∧ observed l') ∧
  (∀ l', cycle_next l = Some l' →
     ∀ s', exec n (Agent i) s = Next s' → procs s' !! i = Some l') ∧
  ((l = LLockFirst ∧ heap s !! first_fork p = Some (mkFork true)) ∨
   (l = LLockSecond ∧ heap s !! second_fork p = Some (mkFork true)) →
     ∀ b, exec n (Agent i) (set_done b s) = Blocked) ∧
  (∀ t s', t ≠ Agent i → exec n t s = Next s' → procs s' !! i = Some l) ∧
  (l ≠ LExited →
     (∃ s', exec n (Agent i) s = Next s') ∨
     (l = LLockFirst ∧ heap s !! first_fork p = Some (mkFork true)) ∨
     (l = LLockSecond ∧ heap s !! second_fork p = Some (mkFork true))) ∧
  (l = LFinishPrint →
     exec n (Agent i) s = Next (set_loc i LDeferDone (emit (EvFinished i) s))) ∧
  (l = LDeferDone →
     ∃ c, wg s = S c ∧ exec n (Agent i) s = Next (set_loc i LExited (set_wg c s))) ∧
  (l = LExited → exec n (Agent i) s = Halted) ∧
  (observed l → done s = true) ∧
  (2 ≤ n → done s = true → inevitably n (λ s', procs s' !! i = Some LExited) s).
Proof.
  intros Hr Hl Hp.
  destruct (agent_statement_facts n s i l p Hl Hp) as (H1 & H2 & H3 & H4 & H5 & H6).
  destruct (reachable_inv n s Hr) as (Hwf & Hlk & _).
  destruct (wf_agent_seat n s i l p Hwf Hl Hp) as [Hi Hseat].
  do 6 (split; [done|]).
  split; [|split; [|split; [|split; [|split]]]].
  - intros Hlive. rewrite Hseat. by apply agent_enabled_or_waits.
  - intros ->. unfold exec, exec_agent. rewrite Hl, Hp, Hseat. done.
  - intros ->.
    destruct (agent_enabled_or_waits n s i LDeferDone Hwf Hlk Hl ltac:(done))
      as [[s' Hs]|[[? _]|[? _]]]; [|done..].
    apply exec_agent_Next in Hs as (l0 & p0 & Hl0 & Hp0 & Hs). simplify_eq.
    inversion Hs; subst. exists c. split; [done|].
    unfold exec, exec_agent, wg_done. by rewrite Hl, Hp, H.
  - intros ->. unfold exec, exec_agent. by rewrite Hl, Hp.
  - by apply (observed_done n s i l).
  - intros Hn Hd.
    apply (inevitably_mono n (terminated n)); [|by apply inevitably_terminated].
    intros s' [_ Hps]. rewrite Hps. by apply lookup_replicate_2.
Qed.

(** The statement of C6 for philosopher 1 of the sample state: [done] is
    closed, yet it stays blocked in its first [Lock] (fork 2 is held by
    philosopher 2); philosopher 0, at the print of [eat], can go on; and
    philosopher 1 has exited after finitely many steps on every schedule. *)
Lemma cooperative_cancellation_witness :
  reachable numPhilosophers sample_state ∧
  procs sample_state !! 1 = Some LLockFirst ∧
  philosophers sample_state !! 1 = Some (mkPhilosopher 1 1 2) ∧
  done sample_state = true ∧
  exec numPhilosophers (Agent 1) sample_state = Blocked ∧
  exec numPhilosophers (Agent 0) sample_state
    = Next (set_loc 0 LEatSleep (emit (EvEating 0) sample_state)) ∧
  inevitably numPhilosophers (λ s', procs s' !! 1 = Some LExited) sample_state.
Proof.
  pose proof sample_state_reachable as Hr.
  assert (procs sample_state !! 1 = Some LLockFirst) as Hl by reflexivity.
  assert (philosophers sample_state !! 1 = Some (mkPhilosopher 1 1 2)) as Hp by reflexivity.
  destruct (cooperative_cancellation numPhilosophers sample_state 1 LLockFirst
              (mkPhilosopher 1 1 2) Hr Hl Hp)
    as (_ & _ & _ & _ & Hblocked & _ & _ & _ & _ & _ & _ & Hexit).
  split; [done|]. split; [done|]. split; [done|]. split; [reflexivity|].
  split; [|split].
  - apply (Hblocked (or_introl (conj eq_refl eq_refl)) true).
  - reflexivity.
  - apply Hexit; [unfold numPhilosophers; lia|reflexivity].
Defined.

(** A complete run of the program: every philosopher thinks and eats
    once, [main] sleeps and closes [done], every philosopher leaves its
    loop, and [main] joins them and returns. *)
Definition complete_schedule : list tid :=
  startup 5 ++ burst 0 9 ++ burst 1 9 ++ burst 2 9 ++ burst 3 9 ++ burst 4 9 ++
  [Main; Main] ++
  burst 3 3 ++ burst 0 3 ++ burst 4 3 ++ burst 1 3 ++ burst 2 3 ++
  [Main; Main].

Definition final_state : state :=
  default init (run numPhilosophers complete_schedule init).

Lemma final_state_reachable : reachable numPhilosophers final_state.
Proof.
  apply (run_reachable numPhilosophers complete_schedule init); [apply reachable_init|].
  vm_compute. reflexivity.
Qed.

Lemma filter_main_event (e : event) (l : list event) :
  is_main_event e → filter (λ e', e' = e) (filter is_main_event l) = filter (λ e', e' = e) l.
Proof.
  intros He. induction l as [|a l IH]; [done|].
  rewrite !(filter_cons _ a). destruct (decide (is_main_event a)) as [Ha|Ha].
  - rewrite filter_cons. case_decide; by rewrite IH.
  - rewrite decide_False; [done|]. by intros ->.
Qed.

Lemma filter_go_other (e : event) (l : list nat) :
  (∀ k, e ≠ EvGo k) → filter (λ e', e' = e) (EvGo <$> l) = [].
Proof.
  intros He. apply filter_none. intros x Hx ->.
  apply list_elem_of_fmap in Hx as (k & Hk & _). by destruct (He k).
Qed.

Lemma done_write_once n s s' : step n s s' → done s = true → done s' = true.
Proof. intros Hstep Hd. step_cases Hstep; simpl; done. Qed.

(** Before [main] has run any statement nothing has happened. *)
Lemma at_build_init n s : reachable n s → mpc s = MBuild → s = init.
Proof.
  induction 1 as [|s s' Hr IH Hstep]; [done|]. intros Hm.
  step_cases Hstep; simpl in Hm; try done.
  all: specialize (IH Hm); subst s; simplify_eq.
Qed.

Lemma run_app n a b s : run n (a ++ b) s = run n a s ≫= run n b.
Proof.
  revert s. induction a as [|t a IH]; intros s; simpl; [done|].
  by destruct (exec n t s).
Qed.

(** [main] at the head of the loop of line 102, about to start goroutine
    [j], when no goroutine has run yet. *)
Definition loop_state (n j : nat) : state :=
  mkState (MRange j) (table n) (replicate n (mkFork false)) (replicate j LSelect)
          false j (EvGo <$> seq 0 j).

(** [main] in [wg.Wait()] with all [n] goroutines started and none of
    them run yet. *)
Definition started (n : nat) : state :=
  mkState MWait (table n) (replicate n (mkFork false)) (replicate n LSelect)
          true n ((EvGo <$> seq 0 n) ++ [EvSleep 5000000000; EvClose]).

Lemma run_loop_body n j rest :
  j < n →
  run n (Main :: Main :: rest) (loop_state n j) = run n rest (loop_state n (S j)).
Proof.
  intros Hj. unfold loop_state. cbn [run exec exec_main mpc philosophers].
  rewrite table_length, decide_True by done.
  cbn [run exec exec_main mpc set_mpc set_wg emit set_procs philosophers heap procs
       done wg trace].
  by rewrite replicate_S_end, seq_S, fmap_app.
Qed.

Lemma run_loop n k j :
  j + k ≤ n →
  run n (replicate (2 * k) Main) (loop_state n j) = Some (loop_state n (j + k)).
Proof.
  revert j. induction k as [|k IH]; intros j Hjk.
  - simpl. by rewrite Nat.add_0_r.
  - replace (2 * S k) with (S (S (2 * k))) by lia.
    cbn [replicate]. rewrite run_loop_body by lia.
    rewrite IH by lia. do 2 f_equal. lia.
Qed.

(** Scheduled alone, [main] builds the ring, starts goroutines
    [0 .. n-1], sleeps, closes [done] and arrives at [wg.Wait()]. *)
Lemma run_startup n :
  1 ≤ n → run n (startup n ++ [Main; Main]) init = Some (started n).
Proof.
  intros Hn. unfold startup.
  replace (2 * n + 2) with (S (2 * n + 1)) by lia.
  cbn [replicate app]. rewrite replicate_add.
  cbn [run exec exec_main mpc init]. rewrite build_ring_spec by done.
  cbn [ring_philosophers ring_heap procs done wg trace init].
  rewrite <- app_assoc, run_app.
  change (mkState (MRange 0) (table n) (replicate n (mkFork false)) [] false 0 [])
    with (loop_state n 0).
  rewrite run_loop by lia. unfold loop_state. simpl.
  unfold exec_main at 1. cbn [mpc philosophers].
  rewrite table_length, decide_False by lia.
  cbn [exec_main mpc set_mpc emit set_done philosophers heap procs done wg trace].
  unfold started, set_mpc, emit, set_done.
  cbn [mpc philosophers heap procs done wg trace].
  by rewrite <- app_assoc.
Qed.

Lemma started_reachable n : 1 ≤ n → reachable n (started n).
Proof.
  intros Hn. apply (run_reachable n (startup n ++ [Main; Main]) init).
  - apply reachable_init.
  - by apply run_startup.
Qed.

(** [wg.Wait()] returns exactly when every goroutine has exited. *)
Lemma wait_counter n s :
  wf n s → mpc s = MWait → (wg s = 0 ↔ procs s = replicate n LExited).
Proof.
  intros Hwf Hm. pose proof (wf_wg _ _ Hwf) as Hwg.
  pose proof (wf_procs _ _ Hwf) as Hlen. rewrite Hm in Hwg, Hlen. simpl in Hwg, Hlen.
  split.
  - intros Hz. symmetry. apply replicate_as_Forall. split; [done|].
    apply Forall_lookup. intros i l Hl.
    destruct (decide (l = LExited)) as [->|Hne]; [done|].
    pose proof (filter_lookup_pos live (procs s) i l Hl Hne). lia.
  - intros Hp. rewrite Hwg, Hp, Nat.add_0_r.
    rewrite (filter_none live (replicate n LExited)); [done|].
    intros l Hl. apply elem_of_replicate in Hl as [-> _]. unfold live. tauto.
Qed.

(** The time the output accounts for in [time.Sleep], in nanoseconds:
    [time.Sleep(d)] pauses the caller for at least [d].  The sleeps of the
    philosophers are of random length and leave no event. *)
Definition slept (tr : list event) : Z :=
  foldr (λ e t, match e with EvSleep ns => (ns + t)%Z | _ => t end) 0%Z tr.

Lemma slept_app (a b : list event) : slept (a ++ b) = (slept a + slept b)%Z.
Proof.
  induction a as [|e a IH]; [done|]. simpl. fold (slept (a ++ b)). fold (slept a).
  rewrite IH. destruct e; lia.
Qed.

Lemma slept_go (l : list nat) : slept (EvGo <$> l) = 0%Z.
Proof. induction l as [|k l IH]; [done|]. exact IH. Qed.

Lemma slept_main_events (tr : list event) : slept (filter is_main_event tr) = slept tr.
Proof.
  induction tr as [|e tr IH]; [done|].
  rewrite filter_cons. destruct (decide (is_main_event e)) as [He|He].
  - simpl. fold (slept (filter is_main_event tr)). fold (slept tr). by rewrite IH.
  - rewrite IH. by destruct e; simpl in *.
Qed.

(** C7.  [main] performs its statements in program order and each of
    them does what the claim says, for every table of at least one
    philosopher.  As an invariant: what [main] has done so far is fixed by
    its program point (build the ring, start goroutines [0 .. n-1], sleep,
    close [done], print the final line); [done] is closed exactly from the
    [close] statement on, that statement has run exactly once when [done] is
    closed and never otherwise, and no step reopens [done]; when [main] has
    returned, all [n] goroutines have been started and every one of them has
    exited.  As progress: at every program point before [wg.Wait()] [main]
    can take its step, whatever the goroutines have done, and the step is the
    one written here - the build yields the ring of [n], the loop starts one
    more goroutine at the top of [dine] while fewer than [n] are started and
    leaves for the sleep once [n] are, the sleep is [time.Sleep] of
    5 000 000 000 ns, the close sets [done]; [wg.Wait()] lets [main] on
    exactly when all [n] goroutines have exited and blocks it otherwise;
    then [main] prints and returns.  Scheduled alone from the start, [main]
    reaches [wg.Wait()] with [n] goroutines started, the sleep done and
    [done] closed; and for [n] of at least two, from there and from every
    other reachable state in which [done] is closed, every execution ends
    with [main] returned and all goroutines exited.  Time is not part of
    the state: the sleep is the statement with its duration, and [slept]
    adds up the durations of the sleeps in the output - none before the
    sleep of [main], 5 000 000 000 ns from then on and whenever [done] is
    closed. *)
Theorem coordinator_run (n : nat) (s : state) :
  reachable n s →
  (mpc s ≠ MBuild → philosophers s = table n) ∧
  main_events s = main_history n (mpc s) ∧
  length (procs s) = spawned n (mpc s) ∧
  done s = closed (mpc s) ∧
  occurrences EvClose s = (if done s then 1 else 0) ∧
  (∀ s', step n s s' → done s = true → done s' = true) ∧
  (mpc s = MExited →
     procs s = replicate n LExited ∧
     main_events s =
       (EvGo <$> seq 0 n) ++ [EvSleep run_duration; EvClose; EvAllFinished]) ∧
  slept (trace s) =
    match mpc s with
    | MBuild | MRange _ | MGo _ | MSleep => 0%Z
    | _ => 5000000000%Z
    end ∧
  (done s = true → slept (trace s) = 5000000000%Z) ∧
  (1 ≤ n →
     (mpc s = MBuild →
        s = init ∧
        exec n Main s =
          Next (mkState (MRange 0) (table n) (replicate n (mkFork false)) [] false 0 [])) ∧
     (∀ k, mpc s = MRange k →
        exec n Main s =
          if decide (k < n) then Next (set_mpc (MGo k) (set_wg (S (wg s)) s))
          else Next (set_mpc MSleep s)) ∧
     (∀ k, mpc s = MGo k →
        k < n ∧
        exec n Main s =
          Next (set_mpc (MRange (S k))
                  (emit (EvGo k) (set_procs (procs s ++ [LSelect]) s)))) ∧
     (mpc s = MSleep →
        length (procs s) = n ∧
        exec n Main s = Next (set_mpc MClose (emit (EvSleep 5000000000) s))) ∧
     (mpc s = MClose →
        exec n Main s = Next (set_mpc MWait (emit EvClose (set_done true s)))) ∧
     (mpc s = MWait →
        exec n Main s =
          if decide (procs s = replicate n LExited) then Next (set_mpc MPrintln s)
          else Blocked) ∧
     (mpc s = MPrintln →
        exec n Main s = Next (set_mpc MExited (emit EvAllFinished s))) ∧
     (mpc s = MExited → exec n Main s = Halted) ∧
     run n (startup n ++ [Main; Main]) init =
       Some (mkState MWait (table n) (replicate n (mkFork false)) (replicate n LSelect)
               true n ((EvGo <$> seq 0 n) ++ [EvSleep 5000000000; EvClose])) ∧
     (2 ≤ n →
        inevitably n (terminated n)
          (mkState MWait (table n) (replicate n (mkFork false)) (replicate n LSelect)
             true n ((EvGo <$> seq 0 n) ++ [EvSleep 5000000000; EvClose])) ∧
        (done s = true → inevitably n (terminated n) s))).
Proof.
  intros Hr. destruct (reachable_inv n s Hr) as (Hwf & _ & [Hmain _]).
  assert (slept (trace s) =
            match mpc s with
            | MBuild | MRange _ | MGo _ | MSleep => 0%Z
            | _ => 5000000000%Z
            end) as Hslept.
  { rewrite <- slept_main_events. fold (main_events s). rewrite Hmain.
    destruct (mpc s); cbn [main_history]; rewrite ?slept_app, ?slept_go; done. }
  split; [|split; [|split; [|split; [|split; [|split; [|split; [|split; [|split]]]]]]]].
  - intros Hm. by destruct (wf_ring _ _ Hwf Hm).
  - done.
  - apply (wf_procs _ _ Hwf).
  - apply (wf_done _ _ Hwf).
  - unfold occurrences. rewrite <- (filter_main_event EvClose (trace s)) by done.
    fold (main_events s). rewrite Hmain, (wf_done _ _ Hwf).
    destruct (mpc s); simpl; rewrite ?filter_app, ?filter_go_other by done; done.
  - intros s' Hstep. by apply (done_write_once n s s').
  - intros Hm. split.
    + apply (joined_all_exited n s Hwf). by right.
    + by rewrite Hmain, Hm.
  - done.
  - intros Hdone. rewrite Hslept. rewrite (wf_done _ _ Hwf) in Hdone.
    by destruct (mpc s).
  - intros Hn.
    pose proof (wf_done _ _ Hwf) as Hd. pose proof (wf_procs _ _ Hwf) as Hlen.
    pose proof (wf_bound _ _ Hwf) as Hb.
    split; [|split; [|split; [|split; [|split; [|split; [|split; [|split; [|split]]]]]]]].
    + intros Hm. pose proof (at_build_init n s Hr Hm) as ->. split; [done|].
      cbn [exec exec_main mpc init]. by rewrite build_ring_spec.
    + intros k Hm. simpl. unfold exec_main. rewrite Hm.
      destruct (wf_ring _ _ Hwf) as [-> _]; [by rewrite Hm|].
      rewrite table_length. done.
    + intros k Hm. rewrite Hm in Hb. split; [done|].
      simpl. unfold exec_main. by rewrite Hm.
    + intros Hm. rewrite Hm in Hlen. split; [done|].
      simpl. unfold exec_main. by rewrite Hm.
    + intros Hm. rewrite Hm in Hd. simpl. unfold exec_main. by rewrite Hm, Hd.
    + intros Hm. simpl. unfold exec_main. rewrite Hm.
      pose proof (wait_counter n s Hwf Hm) as Hw.
      destruct (wg s) as [|c].
      * rewrite decide_True; [done|]. by apply Hw.
      * rewrite decide_False; [done|]. intros Hp. apply Hw in Hp. lia.
    + intros Hm. simpl. unfold exec_main. by rewrite Hm.
    + intros Hm. simpl. unfold exec_main. by rewrite Hm.
    + by apply run_startup.
    + intros Hn2. split.
      * apply inevitably_terminated; [done| |done].
        apply (started_reachable n Hn).
      * intros Hdone. by apply inevitably_terminated.
Qed.

(** The statement of C7 at the end of the complete run, the run of
    [main] alone up to [wg.Wait()], and the return of [main] from there. *)
Lemma coordinator_run_witness :
  reachable numPhilosophers final_state ∧
  mpc final_state = MExited ∧
  procs final_state = replicate numPhilosophers LExited ∧
  main_events final_state =
    [EvGo 0; EvGo 1; EvGo 2; EvGo 3; EvGo 4;
     EvSleep run_duration; EvClose; EvAllFinished] ∧
  occurrences EvClose final_state = 1 ∧
  slept (trace final_state) = 5000000000%Z ∧
  exec numPhilosophers Main final_state = Halted ∧
  run numPhilosophers (replicate 14 Main) init =
    Some (mkState MWait (table 5) (replicate 5 (mkFork false)) (replicate 5 LSelect)
            true 5 [EvGo 0; EvGo 1; EvGo 2; EvGo 3; EvGo 4; EvSleep 5000000000; EvClose]) ∧
  inevitably numPhilosophers (terminated numPhilosophers) final_state.
Proof.
  pose proof final_state_reachable as Hr.
  destruct (coordinator_run numPhilosophers final_state Hr)
    as (_ & _ & _ & _ & Hclose & _ & Hend & Hslept & _ & Hprog).
  destruct (Hend eq_refl) as [Hprocs Hevents].
  destruct (Hprog ltac:(unfold numPhilosophers; lia))
    as (_ & _ & _ & _ & _ & _ & _ & Hhalt & Hrun & Hret).
  destruct (Hret ltac:(unfold numPhilosophers; lia)) as [_ Hfin].
  split; [done|]. split; [reflexivity|]. split; [done|]. split; [done|].
  split; [done|]. split; [exact Hslept|]. split; [by apply Hhalt|]. split; [exact Hrun|].
  by apply Hfin.
Defined.



(** ** Further properties of the table *)

(** Program points at which the philosopher has both forks in hand:
    from the second [Lock] up to the first [Unlock] (lines 61/64 to 72). *)
Definition has_both (l : loc) : Prop := l = LEatPrint ∨ l = LEatSleep ∨ l = LUnlockLeft.

Global Instance has_both_dec l : Decision (has_both l).
Proof. unfold has_both. apply _. Defined.

(** How many forks a goroutine has in hand at a program point. *)
Definition forks_in_hand (l : loc) : nat :=
  match l with
  | LLockSecond | LUnlockRight => 1
  | LEatPrint | LEatSleep | LUnlockLeft => 2
  | _ => 0
  end.

Definition is_locked (f : Fork) : Prop := locked f = true.

Global Instance is_locked_dec f : Decision (is_locked f).
Proof. unfold is_locked. apply _. Defined.

Lemma has_both_held s i l p :
  procs s !! i = Some l → philosophers s !! i = Some p → has_both l →
  holds s i (leftFork p) ∧ holds s i (rightFork p).
Proof.
  intros Hl Hp Hb. split; apply (holds_self s i l p); try done;
    destruct Hb as [->|[->| ->]]; simpl; rewrite !elem_of_cons; auto.
Qed.

(** X1.  Two neighbours at the table never have both their forks at the
    same time: while philosopher [i] has both forks, philosopher
    [(i+1) mod n] does not (they share fork [(i+1) mod n]). *)
Theorem neighbours_exclude (n : nat) (s : state) (i : nat) (li lj : loc) :
  2 ≤ n → reachable n s →
  procs s !! i = Some li → procs s !! ((i + 1) mod n) = Some lj →
  has_both li → ¬ has_both lj.
Proof.
  intros Hn Hr Hli Hlj Hbi Hbj.
  destruct (reachable_inv n s Hr) as (Hwf & Hlk & _).
  pose proof (wf_agent_lt n s i li Hwf Hli) as Hi.
  pose proof (wf_agent_philosopher n s i li Hwf Hli) as Hpi.
  pose proof (wf_agent_philosopher n s _ lj Hwf Hlj) as Hpj.
  destruct (has_both_held s i li _ Hli Hpi Hbi) as [_ Hright].
  destruct (has_both_held s _ lj _ Hlj Hpj Hbj) as [Hleft _].
  simpl in Hright, Hleft.
  pose proof (lk_excl s Hlk _ _ _ Hright Hleft) as Heq.
  by apply (succ_mod_ne n i Hn Hi).
Qed.

(** X1 in the sample state: philosopher 0 has both forks, its neighbour
    1 has not. *)
Lemma neighbours_exclude_witness :
  2 ≤ numPhilosophers ∧ reachable numPhilosophers sample_state ∧
  procs sample_state !! 0 = Some LEatPrint ∧
  procs sample_state !! ((0 + 1) mod numPhilosophers) = Some LLockFirst ∧
  has_both LEatPrint ∧ ¬ has_both LLockFirst.
Proof.
  assert (2 ≤ numPhilosophers) as Hn by (unfold numPhilosophers; lia).
  pose proof sample_state_reachable as Hr.
  assert (procs sample_state !! 0 = Some LEatPrint) as H0 by reflexivity.
  assert (procs sample_state !! ((0 + 1) mod numPhilosophers) = Some LLockFirst) as H1
    by reflexivity.
  assert (has_both LEatPrint) as Hb by (by left).
  split; [done|]. split; [done|]. split; [done|]. split; [done|]. split; [done|].
  exact (neighbours_exclude numPhilosophers sample_state 0 LEatPrint LLockFirst
           Hn Hr H0 H1 Hb).
Defined.

(** The forks in the goroutines' hands are exactly the locked forks. *)
Lemma forks_in_hand_locked n s :
  reachable n s →
  sum_list (forks_in_hand <$> procs s) = length (filter is_locked (heap s)).
Proof.
  induction 1 as [|s s' Hr IH Hstep]; [done|].
  destruct (reachable_inv n s Hr) as (Hwf & _ & _).
  step_cases Hstep; simpl; try done.
  { (* build *)
    apply build_ring_Some in H0 as [_ ->]. simpl.
    assert (procs s = []) as -> by
      (apply length_zero_iff_nil; by rewrite (wf_procs _ _ Hwf), Hm).
    simpl. symmetry. apply length_zero_iff_nil. apply filter_none.
    intros f Hf. apply elem_of_replicate in Hf as [-> _]. done. }
  { rewrite fmap_app, sum_list_with_app. simpl. lia. }
  all: rewrite list_fmap_insert.
  all: match goal with
       | Hl : procs ?s !! ?i = Some ?l |- context [<[?i:=forks_in_hand ?l']> _] =>
           pose proof (sum_list_insert (forks_in_hand <$> procs s) i
                         (forks_in_hand l) (forks_in_hand l')
                         ltac:(by rewrite list_lookup_fmap, Hl)) as Hsum
       end; cbn [forks_in_hand] in *.
  all: try lia.
  all: match goal with
       | Hf : heap ?s !! ?f = Some ?x |- context [<[?f:=?y]> (heap ?s)] =>
           pose proof (filter_insert_length is_locked (heap s) f x y Hf) as Hcount
       end.
  all: repeat case_decide; unfold is_locked in *; simpl in *; try done; lia.
Qed.

Lemma has_both_two (ps : list loc) :
  2 * length (filter has_both ps) ≤ sum_list (forks_in_hand <$> ps).
Proof.
  induction ps as [|l ps IH]; [done|].
  rewrite filter_cons, fmap_cons. change (sum_list (?x :: ?k)) with (x + sum_list k).
  case_decide as Hb; [|lia]. cbn [length].
  destruct Hb as [->|[->| ->]]; cbn [forks_in_hand]; lia.
Qed.

(** X2.  At any time at most half of the philosophers have both forks:
    twice their number is at most the number of locked forks, which is the
    number of forks in the philosophers' hands and at most [n]. *)
Theorem at_most_half_eat (n : nat) (s : state) :
  reachable n s →
  sum_list (forks_in_hand <$> procs s) = length (filter is_locked (heap s)) ∧
  2 * length (filter has_both (procs s)) ≤ length (filter is_locked (heap s)) ∧
  2 * length (filter has_both (procs s)) ≤ n.
Proof.
  intros Hr. pose proof (forks_in_hand_locked n s Hr) as Hsum.
  pose proof (has_both_two (procs s)) as Htwo.
  destruct (reachable_inv n s Hr) as (Hwf & _ & _).
  pose proof (length_filter is_locked (heap s)) as Hle.
  split; [done|]. split; [lia|].
  destruct (decide (mpc s = MBuild)) as [Hm|Hm].
  - assert (procs s = []) as Hnil by
      (apply length_zero_iff_nil; by rewrite (wf_procs _ _ Hwf), Hm).
    rewrite Hnil. simpl. lia.
  - destruct (wf_ring _ _ Hwf Hm) as [_ Hlen]. lia.
Qed.

(** X2 in the sample state: one philosopher has both forks, four forks
    are locked. *)
Lemma at_most_half_eat_witness :
  reachable numPhilosophers sample_state ∧
  length (filter has_both (procs sample_state)) = 1 ∧
  length (filter is_locked (heap sample_state)) = 4 ∧
  2 * length (filter has_both (procs sample_state)) ≤ numPhilosophers.
Proof.
  pose proof sample_state_reachable as Hr.
  split; [done|]. split; [reflexivity|]. split; [reflexivity|].
  exact (proj2 (proj2 (at_most_half_eat numPhilosophers sample_state Hr))).
Defined.

(** A "thinking" line not yet followed by the "eating" line of the same
    round: the goroutine is between lines 50 and 68. *)
Definition thought_pending (l : loc) : nat :=
  match l with
  | LThinkSleep | LLockFirst | LLockSecond | LEatPrint => 1
  | _ => 0
  end.

Definition pending_thought (s : state) (i : nat) : nat :=
  match procs s !! i with
  | Some l => thought_pending l
  | None => 0
  end.

Lemma pending_thought_insert s i l l' j :
  procs s !! i = Some l →
  pending_thought (set_loc i l' s) j =
  if decide (j = i) then thought_pending l' else pending_thought s j.
Proof.
  intros Hl. unfold pending_thought. simpl. case_decide as Hji.
  - subst j. by rewrite list_lookup_insert_eq by (by eapply lookup_lt_Some).
  - by rewrite list_lookup_insert_ne.
Qed.

Lemma pending_thought_go s s' j :
  procs s' = procs s ++ [LSelect] → pending_thought s' j = pending_thought s j.
Proof.
  intros Hps. unfold pending_thought. rewrite Hps.
  destruct (procs s !! j) as [l|] eqn:Hl.
  - by rewrite (lookup_app_l_Some _ _ _ _ Hl).
  - destruct ((procs s ++ [LSelect]) !! j) as [l|] eqn:Hl'; [|done].
    apply lookup_app_Some in Hl' as [Hl'|[_ Hl']]; [congruence|].
    by apply list_lookup_singleton_Some in Hl' as [_ <-].
Qed.

(** X3.  In the output of every philosopher, "thinking" and "eating"
    lines alternate, starting with "thinking": at any time the number of
    its "thinking" lines is the number of its "eating" lines, plus one
    exactly while it is between the two prints of a round. *)
Theorem think_eat_alternate (n : nat) (s : state) :
  reachable n s →
  ∀ i, occurrences (EvThinking i) s = occurrences (EvEating i) s + pending_thought s i ∧
       occurrences (EvEating i) s ≤ occurrences (EvThinking i) s ≤ occurrences (EvEating i) s + 1.
Proof.
  intros Hr.
  assert (∀ i, occurrences (EvThinking i) s
               = occurrences (EvEating i) s + pending_thought s i) as Hcount.
  { induction Hr as [|s s' Hr IH Hstep]; intros j; [done|].
    destruct (reachable_inv n s Hr) as (Hwf & _ & _).
    specialize (IH j).
    step_cases Hstep.
    all: try (pose proof (wf_agent_seat n _ _ _ _ Hwf Hl Hp) as [Hi ->]).
    all: try (erewrite (pending_thought_insert _ _ _ _ j) by (simpl; done)).
    all: try (erewrite (pending_thought_go s _ j) by reflexivity).
    all: unfold occurrences in *; simpl;
      rewrite ?filter_app, ?length_app, ?filter_cons, ?filter_nil; simpl;
      unfold pending_thought in *; simpl;
      repeat case_decide; simplify_eq; rewrite ?Hl in IH; simpl in *; try done; lia. }
  intros i. split; [apply Hcount|].
  rewrite (Hcount i). unfold pending_thought.
  destruct (procs s !! i) as [l|]; [destruct l|]; simpl; lia.
Qed.

(** X3 at the end of the complete run and in the sample state. *)
Lemma think_eat_alternate_witness :
  reachable numPhilosophers final_state ∧
  occurrences (EvThinking 2) final_state = 1 ∧
  occurrences (EvEating 2) final_state = 1 ∧
  occurrences (EvThinking 2) final_state
    = occurrences (EvEating 2) final_state + pending_thought final_state 2.
Proof.
  pose proof final_state_reachable as Hr.
  split; [done|]. split; [reflexivity|]. split; [reflexivity|].
  exact (proj1 (think_eat_alternate numPhilosophers final_state Hr 2)).
Defined.

(** Executions of a given length. *)
Inductive steps (n : nat) : nat → state → state → Prop :=
| steps_O s : steps n 0 s s
| steps_S k s s1 s' : step n s s1 → steps n k s1 s' → steps n (S k) s s'.

Lemma run_steps n sched s s' : run n sched s = Some s' → steps n (length sched) s s'.
Proof.
  revert s. induction sched as [|t sched IH]; intros s Hrun; simpl in Hrun.
  - simplify_eq. apply steps_O.
  - destruct (exec n t s) as [s1| | |] eqn:E; try done.
    simpl. apply steps_S with s1; [by exists t|by apply IH].
Qed.

Lemma rank_sum_bound (ps : list loc) : sum_list (rank <$> ps) ≤ 11 * length ps.
Proof.
  induction ps as [|l ps IH]; [done|].
  rewrite fmap_cons. change (sum_list (?x :: ?k)) with (x + sum_list k).
  cbn [length]. destruct l; cbn [rank]; lia.
Qed.

(** X4.  Shutdown is bounded: once [done] is closed, no execution takes
    more than [11 * n + 2] further steps (at most eleven statements per
    philosopher to finish its round and leave, two for [main]); every step
    uses up at least one unit of that budget. *)
Theorem bounded_shutdown (n : nat) (s s' : state) (k : nat) :
  reachable n s → done s = true → steps n k s s' →
  k + measure s' ≤ measure s ∧ measure s ≤ 11 * n + 2 ∧ k ≤ 11 * n + 2.
Proof.
  intros Hr Hd Hsteps.
  assert (k + measure s' ≤ measure s) as Hdec.
  { induction Hsteps as [s|k s s1 s' Hstep Hsteps IH]; [lia|].
    destruct (reachable_inv n s Hr) as (Hwf & _ & _).
    destruct (measure_step n s s1 Hwf Hd Hstep) as [Hd1 Hlt].
    assert (reachable n s1) as Hr1 by (by apply reachable_step with s).
    specialize (IH Hr1 Hd1). lia. }
  assert (measure s ≤ 11 * n + 2) as Hbound.
  { destruct (reachable_inv n s Hr) as (Hwf & _ & _).
    pose proof (wf_done _ _ Hwf) as Hc. pose proof (wf_procs _ _ Hwf) as Hlen.
    pose proof (rank_sum_bound (procs s)) as Hsum.
    unfold measure. rewrite Hd in Hc.
    destruct (mpc s); simpl in *; try done; lia. }
  split; [done|]. split; [done|]. lia.
Qed.

(** X4 from the sample state, two steps on. *)
Lemma bounded_shutdown_witness :
  reachable numPhilosophers sample_state ∧ done sample_state = true ∧
  steps numPhilosophers 2 sample_state
    (default init (run numPhilosophers [Agent 0; Agent 2] sample_state)) ∧
  measure sample_state = 43 ∧
  measure sample_state ≤ 11 * numPhilosophers + 2.
Proof.
  pose proof sample_state_reachable as Hr.
  assert (done sample_state = true) as Hd by reflexivity.
  assert (steps numPhilosophers 2 sample_state
            (default init (run numPhilosophers [Agent 0; Agent 2] sample_state))) as Hs.
  { apply (run_steps numPhilosophers [Agent 0; Agent 2]). vm_compute. reflexivity. }
  split; [done|]. split; [done|]. split; [done|]. split; [reflexivity|].
  exact (proj1 (proj2 (bounded_shutdown numPhilosophers sample_state _ 2 Hr Hd Hs))).
Defined.

(** The last line of the output, once [main] has returned. *)
Lemma last_line n s :
  reachable n s → mpc s = MExited → ∃ t, trace s = t ++ [EvAllFinished].
Proof.
  induction 1 as [|s s' Hr IH Hstep]; intros Hm'; [done|].
  destruct (reachable_inv n s Hr) as (Hwf & _ & _).
  step_cases Hstep; simpl in Hm'; try done.
  { by exists (trace s). }
  all: pose proof (joined_all_exited n s Hwf (or_intror Hm')) as Hps.
  all: rewrite Hps in Hl; apply lookup_replicate in Hl as [? _]; done.
Qed.

(** X5.  When [main] has returned the table is at rest: no thread can
    take a step any more, every fork is unlocked, and the summary line is
    the last line of the output and occurs once. *)
Theorem at_rest_after_return (n : nat) (s : state) :
  reachable n s → mpc s = MExited →
  (∀ t, exec n t s = Halted) ∧
  heap s = replicate n (mkFork false) ∧
  (∃ t, trace s = t ++ [EvAllFinished]) ∧
  occurrences EvAllFinished s = 1.
Proof.
  intros Hr Hm. destruct (reachable_inv n s Hr) as (Hwf & Hlk & [Hmain _]).
  pose proof (joined_all_exited n s Hwf (or_intror Hm)) as Hps.
  split; [|split; [|split]].
  - intros [|i]; simpl.
    + unfold exec_main. by rewrite Hm.
    + unfold exec_agent. rewrite Hps.
      destruct (replicate n LExited !! i) as [l|] eqn:Hl; [|done].
      apply lookup_replicate in Hl as [-> _]. by destruct (philosophers s !! i).
  - destruct (wf_ring _ _ Hwf) as [_ Hlen]; [by rewrite Hm|].
    symmetry. apply replicate_as_Forall. split; [done|].
    apply Forall_lookup. intros f [[]] Hf; [|done].
    destruct (lk_sound s Hlk f Hf) as (i & l & p & Hl & _ & Hin).
    rewrite Hps in Hl. apply lookup_replicate in Hl as [-> _].
    by apply elem_of_nil in Hin.
  - by apply (last_line n).
  - unfold occurrences. rewrite <- (filter_main_event EvAllFinished (trace s)) by done.
    fold (main_events s). rewrite Hmain, Hm. simpl.
    rewrite filter_app, filter_go_other by done. done.
Qed.

(** X5 at the end of the complete run. *)
Lemma at_rest_after_return_witness :
  reachable numPhilosophers final_state ∧ mpc final_state = MExited ∧
  heap final_state = replicate numPhilosophers (mkFork false) ∧
  last (trace final_state) = Some EvAllFinished.
Proof.
  pose proof final_state_reachable as Hr.
  assert (mpc final_state = MExited) as Hm by reflexivity.
  split; [done|]. split; [done|]. split; [|reflexivity].
  exact (proj1 (proj2 (at_rest_after_return numPhilosophers final_state Hr Hm))).
Defined.

End Philosophers.

Module Stats.

(** ** Data model (src/unnamed/part_001, lines 9-15) *)

(** [type Worker struct { Name, Position string; Age int; Salary float64 }].
    [int] is the 64-bit integer of the usual platforms, a [Z] whose
    arithmetic wraps around; [float64] is the binary64 primitive float. *)
Record Worker := mkWorker {
  Name : string;
  Position : string;
  Age : Z;
  Salary : float
}.

(** Two's-complement wrap-around of [int] arithmetic. *)
Definition wrap64 (z : Z) : Z := ((z + 2 ^ 63) mod 2 ^ 64 - 2 ^ 63)%Z.

(** The conversion [float64(z)] of an [int], rounding to nearest even. *)
Definition float64_of_int (z : Z) : float :=
  if (z =? - 2 ^ 63)%Z then
    PrimFloat.opp (PrimFloat.mul (PrimFloat.of_uint63 (Uint63.of_Z (2 ^ 62))) (PrimFloat.of_uint63 2))
  else if (z <? 0)%Z then PrimFloat.opp (PrimFloat.of_uint63 (Uint63.of_Z (- z)))
  else PrimFloat.of_uint63 (Uint63.of_Z z).

Definition fzero : float := PrimFloat.of_uint63 0.
Definition ftwo : float := PrimFloat.of_uint63 2.

(** ** The per-chunk computations (lines 17-66) *)

(** The loop of [calculateAverageAge], on the pair [(totalAge, count)]. *)
Fixpoint age_loop (workers : list Worker) (position : string) (totalAge count : Z) : Z * Z :=
  match workers with
  | [] => (totalAge, count)
  | worker :: rest =>
      if String.eqb (Position worker) position
      then age_loop rest position (wrap64 (totalAge + Age worker)) (wrap64 (count + 1))
      else age_loop rest position totalAge count
  end.

Definition calculateAverageAge (workers : list Worker) (position : string) : float :=
  let '(totalAge, count) := age_loop workers position 0%Z 0%Z in
  if (count =? 0)%Z then fzero
  else PrimFloat.div (float64_of_int totalAge) (float64_of_int count).

(** [abs] as the program defines it (lines 61-66). *)
Definition abs (x : float) : float :=
  if PrimFloat.ltb x fzero then PrimFloat.opp x else x.

(** The loop of [findMaxSalary], on [maxSalary]. *)
Fixpoint salary_loop (workers : list Worker) (position : string) (avgAge maxSalary : float) : float :=
  match workers with
  | [] => maxSalary
  | worker :: rest =>
      if String.eqb (Position worker) position
         && PrimFloat.leb (abs (PrimFloat.sub (float64_of_int (Age worker)) avgAge)) ftwo
      then
        if PrimFloat.ltb maxSalary (Salary worker)
        then salary_loop rest position avgAge (Salary worker)
        else salary_loop rest position avgAge maxSalary
      else salary_loop rest position avgAge maxSalary
  end.

Definition findMaxSalary (workers : list Worker) (position : string) (avgAge : float) : float :=
  salary_loop workers position avgAge fzero.

(** ** The drivers (lines 68-234) *)

(** [l[lo:hi]]; out-of-range bounds are a run-time panic, [None] here.
    Indices and lengths are non-negative and bounded by [len(workers)],
    so [nat] loses nothing. *)
Definition slice {A} (l : list A) (lo hi : nat) : option (list A) :=
  if decide (lo ≤ hi ∧ hi ≤ length l) then Some (take (hi - lo) (drop lo l)) else None.

(** The preamble shared by the four closures: the part of [workers] that
    closure [i] works on. *)
Definition chunk (workers : list Worker) (count size i : nat) : option (list Worker) :=
  let startIndex := i * size in
  let endIndex := if i =? count - 1 then length workers else (i + 1) * size in
  slice workers startIndex endIndex.

(** [results[i] = v] where [v] is what closure [i] computes; an index out
    of range is a panic. *)
Definition write_slot (f : nat → option float) (i : nat) (results : list float)
  : option (list float) :=
  v ← f i;
  if decide (i < length results) then Some (<[i:=v]> results) else None.

(** The closures run one after the other in the given order. *)
Fixpoint run_tasks (task : nat → list float → option (list float))
    (order : list nat) (results : list float) : option (list float) :=
  match order with
  | [] => Some results
  | i :: rest => results' ← task i results; run_tasks task rest results'
  end.

(** The loop of lines 101-108 (and 186-193), on [(totalAge, count)]. *)
Fixpoint merge_loop (avgs : list float) (totalAge : float) (count : Z) : float * Z :=
  match avgs with
  | [] => (totalAge, count)
  | avg :: rest =>
      if PrimFloat.ltb fzero avg
      then merge_loop rest (PrimFloat.add totalAge avg) (wrap64 (count + 1))
      else merge_loop rest totalAge count
  end.

(** Lines 100-112: the merged average age. *)
Definition merge_average (avgAgeResults : list float) : float :=
  let '(totalAge, count) := merge_loop avgAgeResults fzero 0%Z in
  if (0 <? count)%Z then PrimFloat.div totalAge (float64_of_int count) else fzero.

(** Lines 129-134: the merged maximum salary. *)
Fixpoint merge_max (maxs : list float) (maxSalary : float) : float :=
  match maxs with
  | [] => maxSalary
  | max :: rest =>
      if PrimFloat.ltb maxSalary max then merge_max rest max else merge_max rest maxSalary
  end.

Definition average_task (workers : list Worker) (position : string) (count size : nat)
    (i : nat) : option float :=
  part ← chunk workers count size i;
  Some (calculateAverageAge part position).

Definition salary_task (workers : list Worker) (position : string) (avgAge : float)
    (count size : nat) (i : nat) : option float :=
  part ← chunk workers count size i;
  Some (findMaxSalary part position avgAge).

(** [processWithoutConcurrency]: the pair it prints, average age and
    maximum salary ([None]: a panic).  Timing is not modelled. *)
Definition processWithoutConcurrency (workers : list Worker) (position : string)
  : option (float * float) :=
  let countSize := 3 in
  let subsetsSize := length workers / countSize in
  avgAgeResults ←
    run_tasks (write_slot (average_task workers position countSize subsetsSize))
              (seq 0 countSize) (replicate countSize fzero);
  let avgAge := merge_average avgAgeResults in
  maxSalaryResults ←
    run_tasks (write_slot (salary_task workers position avgAge countSize subsetsSize))
              (seq 0 countSize) (replicate countSize fzero);
  Some (avgAge, merge_max maxSalaryResults fzero).

(** [processWithConcurrency].  Each goroutine reads only [workers],
    [position] and (in the second phase) [avgAge], none of which changes
    while it runs, and performs one store, into its own slot; [wg.Wait()]
    separates the phases.  An execution is therefore determined by the
    order in which the three stores of a phase take place: [sched1] for the
    averages, [sched2] for the salaries. *)
Definition processWithConcurrency (sched1 sched2 : list nat)
    (workers : list Worker) (position : string) : option (float * float) :=
  let numGoroutines := 3 in
  let chunkSize := length workers / numGoroutines in
  avgAgeResults ←
    run_tasks (write_slot (average_task workers position numGoroutines chunkSize))
              sched1 (replicate numGoroutines fzero);
  let avgAge := merge_average avgAgeResults in
  maxSalaryResults ←
    run_tasks (write_slot (salary_task workers position avgAge numGoroutines chunkSize))
              sched2 (replicate numGoroutines fzero);
  Some (avgAge, merge_max maxSalaryResults fzero).

(** A schedule of a phase: each of the three goroutines stores once. *)
Definition schedule (sched : list nat) : Prop := sched ≡ₚ seq 0 3.

(** The workers of [main] (lines 239-245); the position strings are
    transliterated. *)
Definition main_workers : list Worker :=
  [ mkWorker "Ivanov Ivan" "D" 30 (PrimFloat.of_uint63 50000);
    mkWorker "Petrov Petr" "D" 32 (PrimFloat.of_uint63 60000);
    mkWorker "Sidorov Sidor" "D" 28 (PrimFloat.of_uint63 55000);
    mkWorker "Kuznetsova Olga" "S" 40 (PrimFloat.of_uint63 70000);
    mkWorker "Morozov Aleksey" "S" 42 (PrimFloat.of_uint63 75000) ].

(** ** What the merge is compared with *)

(** The three parts of a list cut at [len/3] and [2*(len/3)]. *)
Definition three_parts (workers : list Worker) : list (list Worker) :=
  let size := length workers / 3 in
  [take size workers; take size (drop size workers); drop (2 * size) workers].

Definition positive (a : float) : Prop := PrimFloat.ltb fzero a = true.

Global Instance positive_dec a : Decision (positive a).
Proof. unfold positive. apply _. Defined.

(** The unweighted arithmetic mean of the strictly positive entries:
    their sum, taken from left to right, divided by their number; zero
    when there is none. *)
Definition mean_of_positive (avgs : list float) : float :=
  let ps := filter positive avgs in
  match ps with
  | [] => fzero
  | _ => PrimFloat.div (fold_left PrimFloat.add ps fzero)
                       (float64_of_int (Z.of_nat (length ps)))
  end.

(** ** Facts about the drivers *)

Local Arguments Nat.div : simpl never.

Lemma wrap64_small (z : Z) : (- 2 ^ 63 ≤ z < 2 ^ 63)%Z → wrap64 z = z.
Proof. intros Hz. unfold wrap64. rewrite Z.mod_small by lia. lia. Qed.

(** Stores into slots commute: the outcome of a phase does not depend on
    the order in which the closures run. *)
Lemma run_tasks_perm (f : nat → option float) (o1 o2 : list nat) (results : list float) :
  o1 ≡ₚ o2 → run_tasks (write_slot f) o1 results = run_tasks (write_slot f) o2 results.
Proof.
  intros Hperm. revert results.
  induction Hperm as [|x l1 l2 _ IH|x y l|l1 l2 l3 _ IH1 _ IH2]; intros results.
  - done.
  - simpl. destruct (write_slot f x results); simpl; [apply IH|done].
  - destruct (decide (x = y)) as [->|Hne]; [done|].
    simpl. unfold write_slot.
    destruct (f x) as [vx|]; destruct (f y) as [vy|]; simpl;
      repeat (case_decide; simpl; rewrite ?length_insert in *); try done; try lia.
    by rewrite list_insert_insert_ne.
  - by rewrite IH1.
Qed.

Lemma run_tasks_three (f : nat → option float) :
  run_tasks (write_slot f) (seq 0 3) (replicate 3 fzero) =
  a ← f 0; b ← f 1; c ← f 2; Some [a; b; c].
Proof.
  simpl. unfold write_slot.
  destruct (f 0) as [a|]; simpl; [|done].
  destruct (f 1) as [b|]; simpl; [|done].
  destruct (f 2) as [c|]; simpl; done.
Qed.

(** The slices of the three closures are always in range. *)
Lemma chunk_lookup (workers : list Worker) (i : nat) (part : list Worker) :
  three_parts workers !! i = Some part →
  chunk workers 3 (length workers / 3) i = Some part.
Proof.
  unfold three_parts. cbv zeta.
  pose proof (Nat.Div0.mul_div_le (length workers) 3) as Hle.
  remember (length workers / 3) as size eqn:Hsize. clear Hsize.
  intros Hpart. unfold chunk, slice.
  destruct i as [|[|[|i]]]; simpl in *; simplify_eq.
  - rewrite decide_True by lia. f_equal.
    rewrite drop_0. f_equal. lia.
  - rewrite decide_True by lia. f_equal.
    replace (size + 0) with size by lia. f_equal. lia.
  - rewrite decide_True by lia. f_equal.
    apply take_ge. rewrite length_drop. lia.
Qed.

Lemma average_task_three workers position i part :
  three_parts workers !! i = Some part →
  average_task workers position 3 (length workers / 3) i
  = Some (calculateAverageAge part position).
Proof. intros Hpart. unfold average_task. by rewrite (chunk_lookup workers i part). Qed.

Lemma salary_task_three workers position avgAge i part :
  three_parts workers !! i = Some part →
  salary_task workers position avgAge 3 (length workers / 3) i
  = Some (findMaxSalary part position avgAge).
Proof. intros Hpart. unfold salary_task. by rewrite (chunk_lookup workers i part). Qed.

(** The sequential driver in closed form: it never panics. *)
Lemma processWithoutConcurrency_spec (workers : list Worker) (position : string) :
  processWithoutConcurrency workers position =
  let avgAge :=
    merge_average ((λ part, calculateAverageAge part position) <$> three_parts workers) in
  Some (avgAge,
        merge_max ((λ part, findMaxSalary part position avgAge) <$> three_parts workers)
                  fzero).
Proof.
  unfold processWithoutConcurrency. cbv zeta.
  rewrite run_tasks_three.
  rewrite (average_task_three workers position 0 _ eq_refl).
  rewrite (average_task_three workers position 1 _ eq_refl).
  rewrite (average_task_three workers position 2 _ eq_refl).
  cbn [mbind option_bind]. rewrite run_tasks_three.
  rewrite (salary_task_three workers position _ 0 _ eq_refl).
  rewrite (salary_task_three workers position _ 1 _ eq_refl).
  rewrite (salary_task_three workers position _ 2 _ eq_refl). done.
Qed.

(** Every execution of the concurrent driver computes what the
    sequential driver computes. *)
Lemma processWithConcurrency_spec (sched1 sched2 : list nat)
    (workers : list Worker) (position : string) :
  schedule sched1 → schedule sched2 →
  processWithConcurrency sched1 sched2 workers position
  = processWithoutConcurrency workers position.
Proof.
  unfold schedule. intros H1 H2. unfold processWithConcurrency, processWithoutConcurrency.
  cbv zeta. rewrite (run_tasks_perm _ sched1 (seq 0 3)) by done.
  destruct (run_tasks _ (seq 0 3) _) as [avgs|]; simpl; [|done].
  by rewrite (run_tasks_perm _ sched2 (seq 0 3)).
Qed.

Lemma merge_loop_spec (avgs : list float) (totalAge : float) (count : Z) :
  (0 ≤ count)%Z → (count + Z.of_nat (length avgs) < 2 ^ 63)%Z →
  merge_loop avgs totalAge count =
  (fold_left PrimFloat.add (filter positive avgs) totalAge,
   (count + Z.of_nat (length (filter positive avgs)))%Z).
Proof.
  revert totalAge count. induction avgs as [|avg avgs IH]; intros totalAge count H0 Hlt.
  - simpl. f_equal. lia.
  - simpl in *. rewrite filter_cons.
    destruct (decide (positive avg)) as [Hpos|Hneg].
    + unfold positive in Hpos. rewrite Hpos. rewrite wrap64_small by lia.
      rewrite IH by lia. simpl. f_equal. lia.
    + assert (PrimFloat.ltb fzero avg = false) as ->.
      { unfold positive in Hneg. by destruct (PrimFloat.ltb fzero avg). }
      apply IH; lia.
Qed.

Lemma merge_average_spec (avgs : list float) :
  (Z.of_nat (length avgs) < 2 ^ 63)%Z → merge_average avgs = mean_of_positive avgs.
Proof.
  intros Hlen. unfold merge_average, mean_of_positive.
  rewrite merge_loop_spec by lia.
  destruct (filter positive avgs) as [|a ps] eqn:E; [done|].
  cbv zeta. simpl length. rewrite Z.add_0_l.
  destruct (0 <? Z.of_nat (S (length ps)))%Z eqn:Hc; [done|].
  apply Z.ltb_ge in Hc. lia.
Qed.

(** ** Main results about the statistics routines *)

(** C9.  For every list of workers and every position, every execution
    of the concurrent routine (whatever the order in which its goroutines
    store their results in either phase) yields the pair — merged average
    age and maximum salary — that the sequential routine yields, and
    neither routine panics. *)
Theorem concurrent_equals_sequential (sched1 sched2 : list nat)
    (workers : list Worker) (position : string) :
  schedule sched1 → schedule sched2 →
  processWithConcurrency sched1 sched2 workers position
    = processWithoutConcurrency workers position ∧
  is_Some (processWithoutConcurrency workers position).
Proof.
  intros H1 H2. split; [by apply processWithConcurrency_spec|].
  rewrite processWithoutConcurrency_spec. by eexists.
Qed.

(** The statement of C9 for the workers of [main], with the goroutines
    finishing in the orders 2, 0, 1 and 1, 2, 0. *)
Lemma concurrent_equals_sequential_witness :
  schedule [2; 0; 1] ∧ schedule [1; 2; 0] ∧
  processWithConcurrency [2; 0; 1] [1; 2; 0] main_workers "D"
    = processWithoutConcurrency main_workers "D" ∧
  processWithoutConcurrency main_workers "D"
    = Some (PrimFloat.of_uint63 30, PrimFloat.of_uint63 60000).
Proof.
  assert (schedule [2; 0; 1]) as H1.
  { unfold schedule. simpl. rewrite (Permutation_swap 0 2). apply perm_skip. apply perm_swap. }
  assert (schedule [1; 2; 0]) as H2.
  { unfold schedule. simpl. rewrite (Permutation_swap 0 2), (Permutation_swap 0 1). done. }
  split; [done|]. split; [done|]. split.
  - exact (proj1 (concurrent_equals_sequential [2; 0; 1] [1; 2; 0] main_workers "D" H1 H2)).
  - vm_compute. reflexivity.
Defined.

(** Six workers: the first part has one worker of position D aged 20, the
    second part two aged 40, the third part none. *)
Definition skewed_workers : list Worker :=
  [ mkWorker "a" "D" 20 (PrimFloat.of_uint63 1);
    mkWorker "b" "S" 99 (PrimFloat.of_uint63 1);
    mkWorker "c" "D" 40 (PrimFloat.of_uint63 1);
    mkWorker "d" "D" 40 (PrimFloat.of_uint63 1);
    mkWorker "e" "S" 50 (PrimFloat.of_uint63 1);
    mkWorker "f" "S" 50 (PrimFloat.of_uint63 1) ].

(** C10, amended.  In both routines the merged average age is the
    unweighted mean of the strictly positive per-part averages: the averages
    of the three parts that are greater than zero are added up from left to
    right and divided by their number, whatever the number of matching
    workers behind each of them; a part whose average is not greater than
    zero is left out, whether or not it contains a matching worker; the
    result is zero when no average is positive.  On [skewed_workers] the
    result, 30, differs from the average over the whole list, 33.33. *)
Theorem merged_average_is_unweighted_mean :
  (∀ workers position,
     fst <$> processWithoutConcurrency workers position =
     Some (mean_of_positive
             ((λ part, calculateAverageAge part position) <$> three_parts workers))) ∧
  (∀ sched1 sched2 workers position,
     schedule sched1 → schedule sched2 →
     fst <$> processWithConcurrency sched1 sched2 workers position =
     Some (mean_of_positive
             ((λ part, calculateAverageAge part position) <$> three_parts workers))) ∧
  (∃ workers position avgAge,
     fst <$> processWithoutConcurrency workers position = Some avgAge ∧
     avgAge ≠ calculateAverageAge workers position).
Proof.
  assert (∀ workers position,
     fst <$> processWithoutConcurrency workers position =
     Some (mean_of_positive
             ((λ part, calculateAverageAge part position) <$> three_parts workers))) as Hseq.
  { intros workers position. rewrite processWithoutConcurrency_spec. cbv zeta. simpl.
    f_equal. apply merge_average_spec. simpl. lia. }
  split; [done|]. split.
  - intros sched1 sched2 workers position H1 H2.
    rewrite processWithConcurrency_spec by done. apply Hseq.
  - exists skewed_workers, "D"%string, (PrimFloat.of_uint63 30).
    split; [vm_compute; reflexivity|].
    intros Heq.
    assert (PrimFloat.ltb (PrimFloat.of_uint63 30) (calculateAverageAge skewed_workers "D")
            = true) as Hlt by (vm_compute; reflexivity).
    rewrite <- Heq in Hlt. vm_compute in Hlt. discriminate.
Qed.

(** The statement of C10 for the workers of [main] under a concurrent
    schedule: the merged average is the mean of the three part averages
    30, 32 and 28. *)
Lemma merged_average_is_unweighted_mean_witness :
  schedule [0; 1; 2] ∧
  fst <$> processWithConcurrency [0; 1; 2] [0; 1; 2] main_workers "D" =
  Some (mean_of_positive
          ((λ part, calculateAverageAge part "D") <$> three_parts main_workers)) ∧
  (λ part, calculateAverageAge part "D") <$> three_parts main_workers
    = [PrimFloat.of_uint63 30; PrimFloat.of_uint63 32; PrimFloat.of_uint63 28].
Proof.
  assert (schedule [0; 1; 2]) as H by (unfold schedule; done).
  split; [done|]. split.
  - exact (proj1 (proj2 merged_average_is_unweighted_mean) [0; 1; 2] [0; 1; 2]
             main_workers "D"%string H H).
  - vm_compute. reflexivity.
Defined.

(** Three workers of position D, one to a part, the first aged 0. *)
Definition zero_age_workers : list Worker :=
  [ mkWorker "a" "D" 0 (PrimFloat.of_uint63 1);
    mkWorker "b" "D" 40 (PrimFloat.of_uint63 1);
    mkWorker "c" "D" 20 (PrimFloat.of_uint63 1) ].

(** The part contains a worker of the position. *)
Definition occupied (position : string) (part : list Worker) : bool :=
  existsb (λ worker, String.eqb (Position worker) position) part.

(** The mean in which every part containing a matching worker counts
    once: the averages of those parts, added from left to right and divided
    by their number. *)
Definition mean_of_occupied (position : string) (parts : list (list Worker)) : float :=
  let avgs :=
    (λ part, calculateAverageAge part position)
      <$> filter (λ part, occupied position part = true) parts in
  match avgs with
  | [] => fzero
  | _ => PrimFloat.div (fold_left PrimFloat.add avgs fzero)
                       (float64_of_int (Z.of_nat (length avgs)))
  end.

(** C10, as first stated, fails: a part that contains a matching worker
    does not contribute when its average is not positive.  On
    [zero_age_workers] every part contains a matching worker and the part
    averages are 0, 40 and 20; both routines leave the first part out and
    give 30, while the mean over the parts that contain a matching worker
    is 20. *)
Lemma zero_age_part_is_skipped :
  Forall (λ part, occupied "D" part = true) (three_parts zero_age_workers) ∧
  (λ part, calculateAverageAge part "D") <$> three_parts zero_age_workers
    = [fzero; PrimFloat.of_uint63 40; PrimFloat.of_uint63 20] ∧
  fst <$> processWithoutConcurrency zero_age_workers "D" = Some (PrimFloat.of_uint63 30) ∧
  fst <$> processWithConcurrency [0; 1; 2] [0; 1; 2] zero_age_workers "D"
    = Some (PrimFloat.of_uint63 30) ∧
  mean_of_occupied "D" (three_parts zero_age_workers) = PrimFloat.of_uint63 20 ∧
  fst <$> processWithoutConcurrency zero_age_workers "D"
    ≠ Some (mean_of_occupied "D" (three_parts zero_age_workers)) ∧
  fst <$> processWithConcurrency [0; 1; 2] [0; 1; 2] zero_age_workers "D"
    ≠ Some (mean_of_occupied "D" (three_parts zero_age_workers)).
Proof.
  split; [|split; [|split; [|split; [|split; [|split]]]]].
  - repeat constructor.
  - vm_compute. reflexivity.
  - vm_compute. reflexivity.
  - vm_compute. reflexivity.
  - vm_compute. reflexivity.
  - intros Heq.
    apply (f_equal (λ o, match o with
                         | Some a => PrimFloat.ltb a (PrimFloat.of_uint63 25)
                         | None => false
                         end)) in Heq.
    vm_compute in Heq. discriminate.
  - intros Heq.
    apply (f_equal (λ o, match o with
                         | Some a => PrimFloat.ltb a (PrimFloat.of_uint63 25)
                         | None => false
                         end)) in Heq.
    vm_compute in Heq. discriminate.
Qed.

(** ** The order of binary64 floats *)

Ltac sf_compare :=
  repeat match goal with
  | |- context [Z.compare ?a ?b] => destruct (Z.compare_spec a b); subst
  | |- context [Pos.compare_cont Eq ?a ?b] =>
      change (Pos.compare_cont Eq a b) with (Pos.compare a b);
      destruct (Pos.compare_spec a b); subst
  end.

Lemma SFltb_trans x y z : SFltb x y = true → SFltb y z = true → SFltb x z = true.
Proof.
  unfold SFltb, SFcompare.
  destruct x as [[]|[]| |[] mx ex], y as [[]|[]| |[] my ey], z as [[]|[]| |[] mz ez];
    try done; sf_compare; simpl; try done; lia.
Qed.

Lemma SFltb_cotrans x y z :
  SFltb x z = true → y ≠ S754_nan → SFltb x y = true ∨ SFltb y z = true.
Proof.
  unfold SFltb, SFcompare.
  destruct x as [[]|[]| |[] mx ex], y as [[]|[]| |[] my ey], z as [[]|[]| |[] mz ez];
    try done; sf_compare; simpl; try done;
    try (intros; (by left) || (by right)); try lia.
Qed.

Lemma SFltb_irrefl x : SFltb x x = false.
Proof.
  unfold SFltb, SFcompare.
  destruct x as [[]|[]| |[] mx ex]; try done; sf_compare; simpl; try done; lia.
Qed.

Lemma SFltb_not_nan x y : SFltb x y = true → x ≠ S754_nan ∧ y ≠ S754_nan.
Proof. unfold SFltb, SFcompare. destruct x, y; done. Qed.

Lemma SFopp_neg x :
  SFltb x (S754_zero false) = true → SFltb (SFopp x) (S754_zero false) = false.
Proof. unfold SFltb, SFcompare. destruct x as [[]|[]| |[] mx ex]; done. Qed.

Lemma Prim2SF_fzero : Prim2SF fzero = S754_zero false.
Proof. vm_compute. reflexivity. Qed.

Lemma ltb_trans a b c :
  PrimFloat.ltb a b = true → PrimFloat.ltb b c = true → PrimFloat.ltb a c = true.
Proof. rewrite !ltb_spec. apply SFltb_trans. Qed.

Lemma ltb_irrefl a : PrimFloat.ltb a a = false.
Proof. rewrite ltb_spec. apply SFltb_irrefl. Qed.

(** The values the maximum can take: the initial zero, or something
    greater than zero (never a NaN, a negative number or a negative zero). *)
Definition good (a : float) : Prop := a = fzero ∨ PrimFloat.ltb fzero a = true.

Lemma good_fzero : good fzero.
Proof. by left. Qed.

Lemma good_not_nan a : good a → Prim2SF a ≠ S754_nan.
Proof.
  intros [->|Hpos]; [by rewrite Prim2SF_fzero|].
  rewrite ltb_spec in Hpos. by apply SFltb_not_nan in Hpos as [_ ?].
Qed.

Lemma good_nonneg a : good a → PrimFloat.ltb a fzero = false.
Proof.
  intros [->|Hpos]; [apply ltb_irrefl|].
  destruct (PrimFloat.ltb a fzero) eqn:Hneg; [|done].
  pose proof (ltb_trans _ _ _ Hpos Hneg) as Habs. by rewrite ltb_irrefl in Habs.
Qed.

Lemma ltb_cotrans a b c :
  PrimFloat.ltb a c = true → good b → PrimFloat.ltb a b = true ∨ PrimFloat.ltb b c = true.
Proof.
  intros Hac Hb. rewrite !ltb_spec in *.
  apply SFltb_cotrans; [done|by apply good_not_nan].
Qed.

(** One step of a running maximum: the comparison of lines 49-51 and
    131-133. *)
Definition pick (a x : float) : float := if PrimFloat.ltb a x then x else a.

Lemma good_pick a x : good a → good (pick a x).
Proof.
  intros Ha. unfold pick. destruct (PrimFloat.ltb a x) eqn:Hax; [|done].
  right. destruct Ha as [->|Hpos]; [done|]. by apply ltb_trans with a.
Qed.

Lemma pick_fzero m : good m → pick fzero m = m.
Proof.
  intros [->|Hpos]; unfold pick; [by rewrite ltb_irrefl|by rewrite Hpos].
Qed.

Lemma pick_not_positive a x : good a → PrimFloat.ltb fzero x = false → pick a x = a.
Proof.
  intros Ha Hx. unfold pick. destruct (PrimFloat.ltb a x) eqn:Hax; [|done].
  destruct Ha as [->|Hpos]; [congruence|].
  pose proof (ltb_trans _ _ _ Hpos Hax). congruence.
Qed.

Lemma pick_assoc a x m : good x → pick (pick a x) m = pick a (pick x m).
Proof.
  intros Hx. unfold pick.
  destruct (PrimFloat.ltb a x) eqn:Hax; destruct (PrimFloat.ltb x m) eqn:Hxm;
    rewrite ?Hax, ?Hxm; try done.
  - by rewrite (ltb_trans _ _ _ Hax Hxm).
  - destruct (PrimFloat.ltb a m) eqn:Ham; [|done].
    destruct (ltb_cotrans a x m Ham Hx); congruence.
Qed.

(** ** Further properties of the statistics routines *)

(** The condition of line 47. *)
Definition eligible (position : string) (avgAge : float) (worker : Worker) : bool :=
  String.eqb (Position worker) position
  && PrimFloat.leb (abs (PrimFloat.sub (float64_of_int (Age worker)) avgAge)) ftwo.

Lemma salary_loop_cons w ws position avgAge a :
  salary_loop (w :: ws) position avgAge a =
  salary_loop ws position avgAge (if eligible position avgAge w then pick a (Salary w) else a).
Proof.
  cbn [salary_loop]. fold (eligible position avgAge w). unfold pick.
  destruct (eligible position avgAge w); [|done].
  by destruct (PrimFloat.ltb a (Salary w)).
Qed.

Lemma salary_loop_app ws1 ws2 position avgAge a :
  salary_loop (ws1 ++ ws2) position avgAge a =
  salary_loop ws2 position avgAge (salary_loop ws1 position avgAge a).
Proof.
  revert a. induction ws1 as [|w ws1 IH]; intros a; [done|].
  rewrite <- app_comm_cons, !salary_loop_cons. apply IH.
Qed.

Lemma merge_max_cons m rest a : merge_max (m :: rest) a = merge_max rest (pick a m).
Proof. cbn [merge_max]. unfold pick. by destruct (PrimFloat.ltb a m). Qed.

(** What the loop of [findMaxSalary] returns, from any admissible start. *)
Lemma salary_loop_max ws position avgAge a :
  good a →
  let r := salary_loop ws position avgAge a in
  good r ∧
  (r = a ∨ ∃ w, w ∈ ws ∧ eligible position avgAge w = true ∧ Salary w = r) ∧
  PrimFloat.ltb r a = false ∧
  (∀ w, w ∈ ws → eligible position avgAge w = true → PrimFloat.ltb r (Salary w) = false).
Proof.
  cbv zeta. revert a. induction ws as [|w ws IH]; intros a Ha.
  - simpl. split; [done|]. split; [by left|]. split; [|by intros w Hw; apply elem_of_nil in Hw].
    destruct Ha as [->|Hpos]; [apply ltb_irrefl|apply ltb_irrefl].
  - rewrite salary_loop_cons.
    set (a' := if eligible position avgAge w then pick a (Salary w) else a).
    assert (good a') as Ha' by (unfold a'; destruct (eligible _ _ w); [by apply good_pick|done]).
    destruct (IH a' Ha') as (Hgood & Hfrom & Hge & Hub).
    set (r := salary_loop ws position avgAge a') in *.
    assert (PrimFloat.ltb r a = false ∧
            (eligible position avgAge w = true → PrimFloat.ltb r (Salary w) = false))
      as [Hra Hrw].
    { unfold a', pick in Hge. destruct (eligible position avgAge w) eqn:He.
      - destruct (PrimFloat.ltb a (Salary w)) eqn:Hax.
        + split; [|done]. destruct (PrimFloat.ltb r a) eqn:Hra; [|done].
          pose proof (ltb_trans _ _ _ Hra Hax). congruence.
        + split; [done|]. intros _.
          destruct (PrimFloat.ltb r (Salary w)) eqn:Hrx; [|done].
          destruct (ltb_cotrans r a (Salary w) Hrx Ha); congruence.
      - split; [done|]. intros ?. done. }
    split; [done|]. split; [|split; [done|]].
    + destruct Hfrom as [Hr|(w' & Hin & He & Hs)].
      * unfold a', pick in Hr. destruct (eligible position avgAge w) eqn:He; [|by left].
        destruct (PrimFloat.ltb a (Salary w)); [|by left].
        right. exists w. split; [left|done].
      * right. exists w'. split; [by right|done].
    + intros w' Hin He. apply elem_of_cons in Hin as [->|Hin]; [by apply Hrw|by apply Hub].
Qed.

(** Starting the loop from an admissible value is the same as starting it
    from zero and comparing afterwards. *)
Lemma salary_loop_pick ws position avgAge a :
  good a →
  salary_loop ws position avgAge a = pick a (salary_loop ws position avgAge fzero).
Proof.
  revert a. induction ws as [|w ws IH]; intros a Ha.
  - simpl. unfold pick. by rewrite good_nonneg.
  - rewrite !salary_loop_cons. destruct (eligible position avgAge w); [|by apply IH].
    pose proof (proj1 (salary_loop_max ws position avgAge fzero good_fzero)) as Hm.
    rewrite (IH (pick a (Salary w))) by (by apply good_pick).
    rewrite (IH (pick fzero (Salary w))) by (apply good_pick, good_fzero).
    destruct (PrimFloat.ltb fzero (Salary w)) eqn:Hpos.
    + assert (pick fzero (Salary w) = Salary w) as -> by (unfold pick; by rewrite Hpos).
      apply pick_assoc. by right.
    + assert (pick fzero (Salary w) = fzero) as -> by (unfold pick; by rewrite Hpos).
      by rewrite (pick_not_positive a), pick_fzero.
Qed.

(** X6.  [findMaxSalary] returns the maximum: its result is zero or the
    salary of a worker of the list that has the position and whose age is
    within 2 of [avgAge]; no such worker has a greater salary; and the
    result is never less than zero (nor a NaN). *)
Theorem findMaxSalary_is_max (workers : list Worker) (position : string) (avgAge : float) :
  (findMaxSalary workers position avgAge = fzero ∨
   ∃ w, w ∈ workers ∧ eligible position avgAge w = true ∧
        Salary w = findMaxSalary workers position avgAge) ∧
  (∀ w, w ∈ workers → eligible position avgAge w = true →
        PrimFloat.ltb (findMaxSalary workers position avgAge) (Salary w) = false) ∧
  PrimFloat.ltb (findMaxSalary workers position avgAge) fzero = false ∧
  Prim2SF (findMaxSalary workers position avgAge) ≠ S754_nan.
Proof.
  destruct (salary_loop_max workers position avgAge fzero good_fzero)
    as (Hgood & Hfrom & Hge & Hub).
  unfold findMaxSalary. split; [done|]. split; [done|]. split; [done|].
  by apply good_not_nan.
Qed.

Lemma three_parts_app (workers : list Worker) :
  take (length workers / 3) workers ++
  take (length workers / 3) (drop (length workers / 3) workers) ++
  drop (2 * (length workers / 3)) workers = workers.
Proof.
  replace (2 * (length workers / 3))
    with (length workers / 3 + length workers / 3) by lia.
  rewrite <- drop_drop, take_drop. apply take_drop.
Qed.

(** X7.  The three slices of the drivers are in range, consecutive and
    cover the list: the first two have [len/3] workers each, the third has
    the rest, and together they are the input, every worker once. *)
Theorem chunks_partition (workers : list Worker) :
  ∃ c0 c1 c2,
    chunk workers 3 (length workers / 3) 0 = Some c0 ∧
    chunk workers 3 (length workers / 3) 1 = Some c1 ∧
    chunk workers 3 (length workers / 3) 2 = Some c2 ∧
    c0 ++ c1 ++ c2 = workers ∧
    length c0 = length workers / 3 ∧
    length c1 = length workers / 3 ∧
    length c2 = length workers - 2 * (length workers / 3).
Proof.
  pose proof (Nat.Div0.mul_div_le (length workers) 3) as Hle.
  eexists _, _, _.
  split; [by apply (chunk_lookup workers 0)|].
  split; [by apply (chunk_lookup workers 1)|].
  split; [by apply (chunk_lookup workers 2)|].
  split; [apply three_parts_app|].
  rewrite !length_take, !length_drop. lia.
Qed.

Lemma Some_pair_inj {A B} (x a : A) (y b : B) : Some (x, y) = Some (a, b) → x = a ∧ y = b.
Proof. by intros [= -> ->]. Qed.

(** X8.  Chunking does not change the maximum: the salary a driver
    prints is [findMaxSalary] of the whole list for the merged average age
    it prints. *)
Theorem merged_max_is_global_max (sched1 sched2 : list nat)
    (workers : list Worker) (position : string) (avgAge maxSalary : float) :
  schedule sched1 → schedule sched2 →
  processWithConcurrency sched1 sched2 workers position = Some (avgAge, maxSalary) →
  processWithoutConcurrency workers position = Some (avgAge, maxSalary) ∧
  maxSalary = findMaxSalary workers position avgAge.
Proof.
  intros H1 H2 Hrun. rewrite processWithConcurrency_spec in Hrun by done.
  split; [done|].
  rewrite processWithoutConcurrency_spec in Hrun. cbv zeta in Hrun.
  apply Some_pair_inj in Hrun as [Havg Hmax]. rewrite Havg in Hmax. rewrite <- Hmax.
  unfold three_parts. cbv zeta.
  set (c0 := take (length workers / 3) workers).
  set (c1 := take (length workers / 3) (drop (length workers / 3) workers)).
  set (c2 := drop (2 * (length workers / 3)) workers).
  assert (workers = c0 ++ c1 ++ c2) as Hcat.
  { symmetry. apply three_parts_app. }
  rewrite Hcat at 1. unfold findMaxSalary.
  rewrite !salary_loop_app.
  cbn [fmap list_fmap]. rewrite !merge_max_cons. cbn [merge_max].
  pose proof (proj1 (salary_loop_max c0 position avgAge fzero good_fzero)) as Hg0.
  rewrite (pick_fzero _ Hg0).
  rewrite (salary_loop_pick c1 position avgAge _ Hg0).
  by rewrite (salary_loop_pick c2 position avgAge _ (good_pick _ _ Hg0)).
Qed.

(** X8 for the workers of [main]. *)
Lemma merged_max_is_global_max_witness :
  schedule [0; 1; 2] ∧
  processWithConcurrency [0; 1; 2] [0; 1; 2] main_workers "D"
    = Some (PrimFloat.of_uint63 30, PrimFloat.of_uint63 60000) ∧
  PrimFloat.of_uint63 60000 = findMaxSalary main_workers "D" (PrimFloat.of_uint63 30).
Proof.
  assert (schedule [0; 1; 2]) as H by (unfold schedule; done).
  assert (processWithConcurrency [0; 1; 2] [0; 1; 2] main_workers "D"
          = Some (PrimFloat.of_uint63 30, PrimFloat.of_uint63 60000)) as Hrun
    by (vm_compute; reflexivity).
  split; [done|]. split; [done|].
  exact (proj2 (merged_max_is_global_max [0; 1; 2] [0; 1; 2] main_workers "D"%string
                  _ _ H H Hrun)).
Defined.

(** The condition of line 24. *)
Definition matching (position : string) (worker : Worker) : Prop :=
  String.eqb (Position worker) position = true.

Global Instance matching_dec position worker : Decision (matching position worker).
Proof. unfold matching. apply _. Defined.

(** The exact sum of the ages of a list of workers. *)
Definition total_age (workers : list Worker) : Z :=
  foldr (λ worker t, (Age worker + t)%Z) 0%Z workers.

(** The quotient [calculateAverageAge] forms from the workers it counts:
    sum and count as [int]s, hence wrapped. *)
Definition average_of (counted : list Worker) : float :=
  if (wrap64 (Z.of_nat (length counted)) =? 0)%Z then fzero
  else PrimFloat.div (float64_of_int (wrap64 (total_age counted)))
                     (float64_of_int (wrap64 (Z.of_nat (length counted)))).

Lemma wrap64_add_l (a b : Z) : wrap64 (wrap64 a + b) = wrap64 (a + b).
Proof.
  unfold wrap64.
  replace ((a + 2 ^ 63) mod 2 ^ 64 - 2 ^ 63 + b + 2 ^ 63)%Z
    with ((a + 2 ^ 63) mod 2 ^ 64 + b)%Z by lia.
  rewrite Zplus_mod_idemp_l. f_equal. f_equal. lia.
Qed.

Lemma age_loop_spec (workers : list Worker) (position : string) (t c : Z) :
  age_loop workers position (wrap64 t) (wrap64 c) =
  (wrap64 (t + total_age (filter (matching position) workers)),
   wrap64 (c + Z.of_nat (length (filter (matching position) workers)))).
Proof.
  revert t c. induction workers as [|w ws IH]; intros t c.
  - simpl. by rewrite !Z.add_0_r.
  - cbn [age_loop]. rewrite filter_cons.
    destruct (decide (matching position w)) as [Hm|Hm].
    + unfold matching in Hm. rewrite Hm, !wrap64_add_l, IH.
      cbn [total_age foldr length]. fold (total_age (filter (matching position) ws)).
      f_equal; f_equal; lia.
    + assert (String.eqb (Position w) position = false) as ->.
      { unfold matching in Hm. by destruct (String.eqb (Position w) position). }
      apply IH.
Qed.

Lemma total_age_perm (ws ws' : list Worker) : ws ≡ₚ ws' → total_age ws = total_age ws'.
Proof.
  induction 1 as [|w l1 l2 _ IH|w1 w2 l|l1 l2 l3 _ IH1 _ IH2]; simpl; lia.
Qed.

(** X9.  [calculateAverageAge] depends only on the workers that have the
    position: it is the quotient of their summed ages and their number
    (both as wrapped [int]s), zero when there is none.  In particular it
    does not depend on the order of the workers. *)
Theorem calculateAverageAge_counts_matching (workers workers' : list Worker)
    (position : string) :
  workers ≡ₚ workers' →
  calculateAverageAge workers position = average_of (filter (matching position) workers) ∧
  calculateAverageAge workers' position = calculateAverageAge workers position ∧
  (filter (matching position) workers = [] → calculateAverageAge workers position = fzero).
Proof.
  intros Hperm.
  assert (∀ ws, calculateAverageAge ws position = average_of (filter (matching position) ws))
    as Hclosed.
  { intros ws. unfold calculateAverageAge, average_of.
    change 0%Z with (wrap64 0) at 1 2. rewrite age_loop_spec. by rewrite !Z.add_0_l. }
  split; [apply Hclosed|]. split.
  - rewrite !Hclosed. unfold average_of.
    assert (filter (matching position) workers' ≡ₚ filter (matching position) workers)
      as Hf by (by rewrite Hperm).
    by rewrite (total_age_perm _ _ Hf), (Permutation_length Hf).
  - intros Hnone. by rewrite Hclosed, Hnone.
Qed.

(** X9 for the workers of [main] and their reversal. *)
Lemma calculateAverageAge_counts_matching_witness :
  main_workers ≡ₚ reverse main_workers ∧
  calculateAverageAge (reverse main_workers) "D" = calculateAverageAge main_workers "D" ∧
  calculateAverageAge main_workers "D" = PrimFloat.of_uint63 30.
Proof.
  assert (main_workers ≡ₚ reverse main_workers) as Hperm by (symmetry; apply reverse_Permutation).
  split; [done|]. split; [|vm_compute; reflexivity].
  exact (proj1 (proj2 (calculateAverageAge_counts_matching main_workers
                         (reverse main_workers) "D"%string Hperm))).
Defined.

Lemma calculateAverageAge_none ws position :
  filter (matching position) ws = [] → calculateAverageAge ws position = fzero.
Proof.
  intros Hnone. unfold calculateAverageAge.
  change 0%Z with (wrap64 0) at 1 2. by rewrite age_loop_spec, Hnone.
Qed.

Lemma salary_loop_none ws position avgAge a :
  filter (matching position) ws = [] → salary_loop ws position avgAge a = a.
Proof.
  induction ws as [|w ws IH]; intros Hnone; [done|].
  rewrite filter_cons in Hnone. destruct (decide (matching position w)) as [Hm|Hm]; [done|].
  rewrite salary_loop_cons. unfold eligible.
  assert (String.eqb (Position w) position = false) as ->.
  { unfold matching in Hm. by destruct (String.eqb (Position w) position). }
  simpl. by apply IH.
Qed.

Lemma filter_none_sublist {A} (P : A → Prop) `{!∀ x, Decision (P x)} (l k : list A) :
  (∀ x, x ∈ k → x ∈ l) → filter P l = [] → filter P k = [].
Proof.
  intros Hsub Hnone. apply filter_none. intros x Hx HP.
  assert (x ∈ filter P l) as Hin by (apply list_elem_of_filter; split; [done|by apply Hsub]).
  rewrite Hnone in Hin. by apply elem_of_nil in Hin.
Qed.

(** X10.  When no worker has the position asked for (in particular on an
    empty list), both drivers print zero for the average age and zero for
    the maximum salary. *)
Theorem no_matching_worker (sched1 sched2 : list nat)
    (workers : list Worker) (position : string) :
  schedule sched1 → schedule sched2 →
  filter (matching position) workers = [] →
  processWithoutConcurrency workers position = Some (fzero, fzero) ∧
  processWithConcurrency sched1 sched2 workers position = Some (fzero, fzero).
Proof.
  intros H1 H2 Hnone.
  assert (processWithoutConcurrency workers position = Some (fzero, fzero)) as Hseq.
  { rewrite processWithoutConcurrency_spec. cbv zeta.
    assert (∀ part, part ∈ three_parts workers → filter (matching position) part = [])
      as Hparts.
    { intros part Hpart. apply (filter_none_sublist _ workers); [|done].
      intros w Hw. rewrite <- (three_parts_app workers).
      unfold three_parts in Hpart. cbv zeta in Hpart.
      rewrite !elem_of_cons in Hpart. rewrite !elem_of_app.
      destruct Hpart as [->|[->|[->|Hnil]]]; auto.
      by apply elem_of_nil in Hnil. }
    assert ((λ part, calculateAverageAge part position) <$> three_parts workers
            = [fzero; fzero; fzero]) as ->.
    { unfold three_parts in *. cbv zeta in *. cbn [fmap list_fmap].
      repeat f_equal;
        match goal with |- calculateAverageAge ?c _ = _ =>
          apply (calculateAverageAge_none c position); apply Hparts;
          rewrite !elem_of_cons; auto
        end. }
    assert (merge_average [fzero; fzero; fzero] = fzero) as -> by (vm_compute; reflexivity).
    assert ((λ part, findMaxSalary part position fzero) <$> three_parts workers
            = [fzero; fzero; fzero]) as ->.
    { unfold three_parts in *. cbv zeta in *. cbn [fmap list_fmap].
      repeat f_equal;
        match goal with |- findMaxSalary ?c _ _ = _ =>
          apply (salary_loop_none c position); apply Hparts;
          rewrite !elem_of_cons; auto
        end. }
    f_equal. }
  split; [done|]. by rewrite processWithConcurrency_spec.
Qed.

(** X10 for the workers of [main] and a position nobody has. *)
Lemma no_matching_worker_witness :
  schedule [0; 1; 2] ∧ filter (matching "X") main_workers = [] ∧
  processWithoutConcurrency main_workers "X" = Some (fzero, fzero).
Proof.
  assert (schedule [0; 1; 2]) as H by (unfold schedule; done).
  assert (filter (matching "X") main_workers = []) as Hnone by reflexivity.
  split; [done|]. split; [done|].
  exact (proj1 (no_matching_worker [0; 1; 2] [0; 1; 2] main_workers "X"%string H H Hnone)).
Defined.

(** X11.  The program's [abs] never returns a value less than zero, it
    returns its argument or the negated argument, and applying it twice is
    applying it once. *)
Theorem abs_not_negative (x : float) :
  PrimFloat.ltb (abs x) fzero = false ∧
  (abs x = x ∨ abs x = PrimFloat.opp x) ∧
  abs (abs x) = abs x.
Proof.
  assert (PrimFloat.ltb (abs x) fzero = false) as Hnn.
  { unfold abs. destruct (PrimFloat.ltb x fzero) eqn:Hneg; [|done].
    rewrite ltb_spec in *. rewrite opp_spec, Prim2SF_fzero in *. by apply SFopp_neg. }
  split; [done|]. split.
  - unfold abs. destruct (PrimFloat.ltb x fzero); auto.
  - unfold abs at 1. by rewrite Hnn.
Qed.

(** [skewed_workers] with the worker of the other position moved out of
    the first part. *)
Definition regrouped_workers : list Worker :=
  [ mkWorker "a" "D" 20 (PrimFloat.of_uint63 1);
    mkWorker "c" "D" 40 (PrimFloat.of_uint63 1);
    mkWorker "d" "D" 40 (PrimFloat.of_uint63 1);
    mkWorker "b" "S" 99 (PrimFloat.of_uint63 1);
    mkWorker "e" "S" 50 (PrimFloat.of_uint63 1);
    mkWorker "f" "S" 50 (PrimFloat.of_uint63 1) ].

(** X12.  Unlike [calculateAverageAge], the merged average age of the
    drivers depends on the order of the workers: there are two orders of the
    same workers, with the same plain average, for which the drivers print
    different averages (30 and 35). *)
Theorem merged_average_depends_on_order :
  ∃ workers workers' position,
    workers ≡ₚ workers' ∧
    calculateAverageAge workers position = calculateAverageAge workers' position ∧
    fst <$> processWithoutConcurrency workers position
      ≠ fst <$> processWithoutConcurrency workers' position.
Proof.
  exists skewed_workers, regrouped_workers, "D"%string. split; [|split].
  - unfold skewed_workers, regrouped_workers. apply perm_skip.
    apply (Permutation_middle [_; _]).
  - vm_compute. reflexivity.
  - intros Heq.
    apply (f_equal (λ o, match o with
                         | Some a => PrimFloat.ltb a (PrimFloat.of_uint63 35)
                         | None => false
                         end)) in Heq.
    vm_compute in Heq. discriminate.
Qed.

End Stats.
